(** * oura_prometheus: a shallow embedding of [oura_prometheus.hpp]

    The header is a small Prometheus client: an [atomic_double] cell, the
    metric kinds built on it (Counter, Gauge, Histogram), label families that
    memoise one instance per label set, a registry and the text serializer.

    Conventions of the embedding
    - [double] is the kernel's binary64 [float]; arithmetic and comparisons are
      the IEEE ones ([PrimFloat.add], [PrimFloat.leb], ...).
    - [std::string] is [string]; [operator<] on strings is [String.ltb]
      (bytes compared as unsigned values).
    - [std::set<K>] is the list of its elements in iteration order, and
      [std::map<K,V>] the list of its entries in iteration order; both are
      kept strictly ascending for the container's comparison.
    - [std::shared_ptr<T>] / [std::weak_ptr<T>] are addresses into an explicit
      heap; [make_shared] allocates a fresh address.
    - a function that throws returns a [Result]; a member function that
      mutates [*this] returns the new object.
    - [std::ostream&] is the text written so far. *)

From Stdlib Require Import Floats ZArith Lia List String Ascii Bool Sorted.
From Stdlib Require Import PeanoNat DecimalString Permutation.
Import ListNotations.

Set Warnings "-inexact-float".

Local Open Scope string_scope.
Local Open Scope list_scope.

(* ================================================================== *)
(** * Part I: the program *)
(* ================================================================== *)

(** ** Comparison objects ([std::less<K>], i.e. [operator<] of the key) *)

Class Less (K : Type) := less : K -> K -> bool.

(** Two keys are equivalent for an ordered container when neither is less
    than the other. *)
Definition equiv {K} `{Less K} (a b : K) : bool :=
  negb (less a b) && negb (less b a).

#[export] Instance string_Less : Less string := String.ltb.
#[export] Instance double_Less : Less float := PrimFloat.ltb.

(** [std::lexicographical_compare], which is [operator<] of [std::set]. *)
Fixpoint lexicographical_compare {K} `{Less K} (a b : list K) : bool :=
  match a, b with
  | _, [] => false
  | [], _ :: _ => true
  | x :: a', y :: b' =>
      if less x y then true
      else if less y x then false
      else lexicographical_compare a' b'
  end.

#[export] Instance set_Less {K} `{Less K} : Less (list K) :=
  lexicographical_compare.

(** ** [std::set<K>] *)

Module StdSet.
Section Ops.
Context {K : Type} `{Less K}.

Definition t := list K.

Definition empty : t := [].

Definition size (s : t) : nat := List.length s.

(** [find(k) != end()] *)
Fixpoint mem (k : K) (s : t) : bool :=
  match s with
  | [] => false
  | x :: s' => if equiv k x then true else mem k s'
  end.

(** [insert(k)]: no effect when an equivalent element is present. *)
Fixpoint insert (k : K) (s : t) : t :=
  match s with
  | [] => [k]
  | x :: s' =>
      if less k x then k :: s
      else if less x k then x :: insert k s'
      else s
  end.

(** Construction from an initializer list. *)
Definition of_list (l : list K) : t :=
  fold_left (fun s k => insert k s) l empty.
End Ops.
Arguments t : clear implicits.
End StdSet.

(** ** [std::map<K,V>] *)

Module StdMap.
Section Ops.
Context {K V : Type} `{Less K}.

Definition t := list (K * V).

Definition empty : t := [].

Definition size (m : t) : nat := List.length m.

Definition keys (m : t) : list K := List.map fst m.

(** [find(k)]: the entry whose key is equivalent to [k], if any. *)
Fixpoint find (k : K) (m : t) : option V :=
  match m with
  | [] => None
  | (k', v) :: m' => if equiv k k' then Some v else find k m'
  end.

(** [insert({k, v})]: no effect when the key is present. *)
Fixpoint insert (k : K) (v : V) (m : t) : t :=
  match m with
  | [] => [(k, v)]
  | (k', v') :: m' =>
      if less k k' then (k, v) :: m
      else if less k' k then (k', v') :: insert k v m'
      else m
  end.

(** [erase(k)]: the map without the entry of key [k]; the number of
    entries removed is the difference of the sizes. *)
Fixpoint erase (k : K) (m : t) : t :=
  match m with
  | [] => []
  | (k', v') :: m' =>
      if equiv k k' then m' else (k', v') :: erase k m'
  end.

Definition erase_count (k : K) (m : t) : nat :=
  size m - size (erase k m).
End Ops.
Arguments t : clear implicits.
End StdMap.

(** The representation invariant of both containers: strictly ascending. *)
Definition ascending {K} `{Less K} (l : list K) : Prop :=
  StronglySorted (fun a b => less a b = true) l.

(** ** Exceptions *)

Inductive exception := invalid_argument (what : string).

Inductive Result (A : Type) :=
  | Ok (a : A)
  | Throw (e : exception).
Arguments Ok {A} a.
Arguments Throw {A} e.

Definition is_ok {A} (r : Result A) : bool :=
  match r with Ok _ => true | Throw _ => false end.

(** ** Text conversion of [double]

    The header never formats a number itself: it relies on
    [operator<<(std::ostream&, double)] and on [std::to_string(double)].
    The C++ standard defines both by [printf]: a stream in its default state
    converts with [%g] and precision 6, [std::to_string] with [%f].  Both
    are computed here on the exact value of the binary64 number, rounded to
    nearest, ties to even. *)

Module DoubleText.
Local Open Scope Z_scope.

Definition digits_of (n : Z) : string :=
  DecimalString.NilZero.string_of_uint (N.to_uint (Z.to_N n)).

Fixpoint zeros (n : nat) : string :=
  match n with O => EmptyString | S n' => String "0" (zeros n') end.

Definition pad_left (width : nat) (s : string) : string :=
  (zeros (width - String.length s)%nat ++ s)%string.

Fixpoint strip_trailing_zeros (s : string) : string :=
  match s with
  | EmptyString => EmptyString
  | String c s' =>
      match strip_trailing_zeros s' with
      | EmptyString => if Ascii.eqb c "0" then EmptyString else String c EmptyString
      | r => String c r
      end
  end.

(** Nearest integer to [n / d], ties to even ([0 < d], [0 <= n]). *)
Definition round_half_even (n d : Z) : Z :=
  let q := n / d in
  match (2 * (n mod d)) ?= d with
  | Lt => q
  | Gt => q + 1
  | Eq => if Z.even q then q else q + 1
  end.

(** [(n, d)] times [10^k]. *)
Definition scale10 (n d k : Z) : Z * Z :=
  if 0 <=? k then (n * 10 ^ k, d) else (n, d * 10 ^ (- k)).

(** [10^x <= n / d] *)
Definition ge_pow10 (n d x : Z) : bool :=
  let '(n', d') := scale10 n d (- x) in d' <=? n'.

(** The decimal exponent [floor (log10 (n / d))], searched downwards from
    an estimate that is never too small. *)
Fixpoint search_exp10 (fuel : nat) (n d x : Z) : Z :=
  match fuel with
  | O => x
  | S fuel' => if ge_pow10 n d x then x else search_exp10 fuel' n d (x - 1)
  end.

Definition exp10 (n d : Z) : Z :=
  let est := ((Z.log2 n - Z.log2 d + 1) * 30103) / 100000 + 1 in
  search_exp10 8 n d est.

(** The [P] significant digits of [n / d] and its decimal exponent after
    rounding. *)
Definition sig_digits (P : Z) (n d : Z) : Z * Z :=
  let x0 := exp10 n d in
  let '(n0, d0) := scale10 n d (P - 1 - x0) in
  let D := round_half_even n0 d0 in
  if 10 ^ P <=? D then (10 ^ (P - 1), x0 + 1) else (D, x0).

Definition exponent_text (x : Z) : string :=
  ((if (x <? 0)%Z then "e-" else "e+") ++ pad_left 2 (digits_of (Z.abs x)))%string.

(** [%g] of the positive rational [n / d] with precision 6. *)
Definition format_g (n d : Z) : string :=
  let '(D, X) := sig_digits 6 n d in
  let ds := digits_of D in
  if (X <? -4) || (6 <=? X) then
    let frac := strip_trailing_zeros (substring 1 5 ds) in
    (substring 0 1 ds
     ++ (if String.eqb frac "" then "" else "." ++ frac)
     ++ exponent_text X)%string
  else if X <? 0 then
    ("0." ++ zeros (Z.to_nat (- X - 1)%Z) ++ strip_trailing_zeros ds)%string
  else
    let k := Z.to_nat (X + 1) in
    let frac := strip_trailing_zeros (substring k (6 - k)%nat ds) in
    (substring 0 k ds ++ (if String.eqb frac "" then "" else "." ++ frac))%string.

(** [%f] of the positive rational [n / d] (six decimals). *)
Definition format_f (n d : Z) : string :=
  let N := round_half_even (n * 10 ^ 6) d in
  (digits_of (N / 10 ^ 6)%Z ++ "." ++ pad_left 6 (digits_of (N mod 10 ^ 6)%Z))%string.

Definition rational_of (m : positive) (e : Z) : Z * Z :=
  if 0 <=? e then (Zpos m * 2 ^ e, 1) else (Zpos m, 2 ^ (- e)).

Definition signed (s : bool) (t : string) : string :=
  if s then ("-" ++ t)%string else t.

Definition render (fmt : Z -> Z -> string) (zero : string) (x : float) : string :=
  match Prim2SF x with
  | S754_nan => "nan"
  | S754_infinity s => signed s "inf"
  | S754_zero s => signed s zero
  | S754_finite s m e => let '(n, d) := rational_of m e in signed s (fmt n d)
  end.

(** [stream << x] *)
Definition ostream_double : float -> string := render format_g "0".

(** [std::to_string(x)] *)
Definition to_string : float -> string := render format_f "0.000000".
End DoubleText.

(** ** [atomic_double], as one thread sees it

    [change] is the compare-and-swap loop of the header: run by one thread
    with no interference, its first exchange succeeds and the cell holds
    [target_value].  The interleaved behaviour is in [Module Threads]. *)

Module atomic_double.
Definition t := float.

Definition load (a : t) : float := a.

(** [operator=] *)
Definition store (desired : float) (a : t) : t := desired.

Definition change (target_value : float) (a : t) : t := target_value.

(** [operator+=] *)
Definition add_assign (value : float) (a : t) : t :=
  change (load a + value)%float a.

(** [operator-=] *)
Definition sub_assign (value : float) (a : t) : t :=
  change (load a - value)%float a.
End atomic_double.

(** ** [atomic_double] under interleaving

    Every atomic access of [operator+=] / [operator-=] is one step of the
    thread that performs it:
    - [this->load()], after which the target [load + value] is fixed;
    - [double current = *this], the initialisation of the loop of [change];
    - [compare_exchange_weak(current, target_value)], which either stores
      the target and ends the loop or reloads [current] and goes round again.
    The shared cell is sequentially consistent (the default memory order). *)

Module Threads.
Inductive op := OpAdd (value : float) | OpSub (value : float).

Inductive thread :=
  | AtLoad (o : op)                                (* about to [load()] *)
  | AtInit (target_value : float)                  (* about to read [current] *)
  | AtCas (current target_value : float)           (* about to exchange *)
  | Done.

Definition target_of (o : op) (loaded : float) : float :=
  match o with
  | OpAdd v => (loaded + v)%float
  | OpSub v => (loaded - v)%float
  end.

(** Comparison of value representations, as the exchange makes it. *)
Definition same_representation (a b : float) : bool :=
  match Prim2SF a, Prim2SF b with
  | S754_zero s1, S754_zero s2 => Bool.eqb s1 s2
  | S754_infinity s1, S754_infinity s2 => Bool.eqb s1 s2
  | S754_nan, S754_nan => true
  | S754_finite s1 m1 e1, S754_finite s2 m2 e2 =>
      Bool.eqb s1 s2 && Pos.eqb m1 m2 && Z.eqb e1 e2
  | _, _ => false
  end.

(** One step of a thread on the shared cell. *)
Definition step_thread (cell : float) (t : thread) : float * thread :=
  match t with
  | AtLoad o => (cell, AtInit (target_of o cell))
  | AtInit target => (cell, AtCas cell target)
  | AtCas current target =>
      if same_representation cell current then (target, Done)
      else (cell, AtCas cell target)
  | Done => (cell, Done)
  end.

Record state := { cell : float; pool : list thread }.

Fixpoint set_nth {A} (i : nat) (x : A) (l : list A) : list A :=
  match l, i with
  | [], _ => []
  | _ :: l', O => x :: l'
  | y :: l', S i' => y :: set_nth i' x l'
  end.

(** The scheduler lets thread [i] take one step. *)
Definition step (i : nat) (s : state) : state :=
  match nth_error s.(pool) i with
  | None => s
  | Some t =>
      let '(c, t') := step_thread s.(cell) t in
      {| cell := c; pool := set_nth i t' s.(pool) |}
  end.

Definition run (schedule : list nat) (s : state) : state :=
  fold_left (fun s i => step i s) schedule s.

Definition finished (s : state) : bool :=
  forallb (fun t => match t with Done => true | _ => false end) s.(pool).

Definition delta (o : op) : float :=
  match o with OpAdd v => v | OpSub v => (- v)%float end.

Definition start (initial : float) (ops : list op) : state :=
  {| cell := initial; pool := List.map AtLoad ops |}.
End Threads.

(** ** Metric types *)

Module MetricType.
Inductive t := Counter | Gauge | Summary | Histogram.
End MetricType.

Definition metric_type_to_string (type : MetricType.t) : string :=
  match type with
  | MetricType.Counter => "counter"
  | MetricType.Gauge => "gauge"
  | MetricType.Summary => "summary"
  | MetricType.Histogram => "histogram"
  end.

(** ** Name formats

    [std::regex_match] succeeds when the whole string matches. *)

Definition in_range (lo hi c : ascii) : bool :=
  (nat_of_ascii lo <=? nat_of_ascii c)%nat && (nat_of_ascii c <=? nat_of_ascii hi)%nat.

Definition is_alpha (c : ascii) : bool := in_range "a" "z" c || in_range "A" "Z" c.
Definition is_digit (c : ascii) : bool := in_range "0" "9" c.

Fixpoint all_chars (p : ascii -> bool) (s : string) : bool :=
  match s with
  | EmptyString => true
  | String c s' => p c && all_chars p s'
  end.

(** [[a-zA-Z_:][a-zA-Z0-9_:]*] *)
Definition name_format_regex (s : string) : bool :=
  match s with
  | EmptyString => false
  | String c s' =>
      (is_alpha c || Ascii.eqb c "_" || Ascii.eqb c ":")
      && all_chars (fun c => is_alpha c || is_digit c || Ascii.eqb c "_" || Ascii.eqb c ":") s'
  end.

Definition check_name_format (name : string) : Result unit :=
  if negb (name_format_regex name)
  then Throw (invalid_argument "Metric name does not follow format")
  else Ok tt.

(** [[a-zA-Z_][a-zA-Z0-9_]*] *)
Definition label_name_format_regex (s : string) : bool :=
  match s with
  | EmptyString => false
  | String c s' =>
      (is_alpha c || Ascii.eqb c "_")
      && all_chars (fun c => is_alpha c || is_digit c || Ascii.eqb c "_") s'
  end.

Definition check_label_name_format (label_name : string) : Result unit :=
  if negb (label_name_format_regex label_name)
  then Throw (invalid_argument "Label name does not follow format")
  else Ok tt.

(** ** Labels *)

Record Label := { name : string; value : string }.

(** [Label::operator<]: the comparison of [std::tie(name, value)]. *)
#[export] Instance Label_Less : Less Label := fun a b =>
  if less a.(name) b.(name) then true
  else if less b.(name) a.(name) then false
  else less a.(value) b.(value).

(** [Label::operator==] *)
Definition Label_eqb (a b : Label) : bool :=
  String.eqb a.(name) b.(name) && String.eqb a.(value) b.(value).

Definition MetricSerializer : Type :=
  string -> string -> float -> StdSet.t Label -> Label -> string.

(** ** The [Metric] base class *)

Module Metric.
Record t := { _name : string; _description : string; _type : MetricType.t }.

(** The constructor: the members are initialised, then the name is checked. *)
Definition new (name description : string) (type : MetricType.t) : Result t :=
  match check_name_format name with
  | Throw e => Throw e
  | Ok _ => Ok {| _name := name; _description := description; _type := type |}
  end.

Definition get_name (m : t) : string := m.(_name).
Definition get_description (m : t) : string := m.(_description).
Definition get_type (m : t) : MetricType.t := m.(_type).
End Metric.

(** ** Heaps: the objects behind [shared_ptr] and [weak_ptr] *)

Definition ptr := nat.

Module Heap.
(** A cell is [None] once its object has been destroyed. *)
Definition t (A : Type) := list (option A).

Definition empty {A} : t A := [].

(** [p.get()] / [weak.lock()] *)
Definition deref {A} (h : t A) (p : ptr) : option A :=
  match nth_error h p with
  | Some (Some a) => Some a
  | _ => None
  end.

(** [std::make_shared<A>(...)]: the new object gets a fresh address. *)
Definition make_shared {A} (a : A) (h : t A) : ptr * t A :=
  (List.length h, h ++ [Some a]).

Fixpoint set_cell {A} (p : ptr) (c : option A) (h : t A) : t A :=
  match h, p with
  | [], _ => []
  | _ :: h', O => c :: h'
  | x :: h', S p' => x :: set_cell p' c h'
  end.

(** A member call through the pointer. *)
Definition update {A} (p : ptr) (f : A -> A) (h : t A) : t A :=
  match deref h p with
  | Some a => set_cell p (Some (f a)) h
  | None => h
  end.

(** The last owner releases the object. *)
Definition destroy {A} (p : ptr) (h : t A) : t A := set_cell p None h.
End Heap.

(** ** Counter *)

Module Counter.
Record t := { _value : atomic_double.t }.

Definition new : t := {| _value := 0%float |}.

Definition get (c : t) : float := atomic_double.load c.(_value).

Definition inc (c : t) : t :=
  {| _value := atomic_double.add_assign 1 c.(_value) |}.

Definition add (value : float) (c : t) : t :=
  if (0.0 <? value)%float
  then {| _value := atomic_double.add_assign value c.(_value) |}
  else c.

Definition serialize (stream : string) (serializer : MetricSerializer)
    (name : string) (labels : StdSet.t Label) (c : t) : string :=
  serializer stream name (atomic_double.load c.(_value)) labels
    {| name := ""; value := "" |}.
End Counter.

(** ** Gauge *)

Module Gauge.
Record t := { _value : atomic_double.t }.

Definition new (initial_value : float) : t := {| _value := initial_value |}.

Definition get (g : t) : float := atomic_double.load g.(_value).

Definition set (value : float) (g : t) : t :=
  {| _value := atomic_double.store value g.(_value) |}.

Definition inc (g : t) : t :=
  {| _value := atomic_double.add_assign 1 g.(_value) |}.

Definition dec (g : t) : t :=
  {| _value := atomic_double.sub_assign 1 g.(_value) |}.

Definition add (value : float) (g : t) : t :=
  if (0.0 <? value)%float
  then {| _value := atomic_double.add_assign value g.(_value) |}
  else g.

Definition sub (value : float) (g : t) : t :=
  if (0.0 <? value)%float
  then {| _value := atomic_double.sub_assign value g.(_value) |}
  else g.

Definition serialize (stream : string) (serializer : MetricSerializer)
    (name : string) (labels : StdSet.t Label) (g : t) : string :=
  serializer stream name (atomic_double.load g.(_value)) labels
    {| name := ""; value := "" |}.
End Gauge.

(** ** Histogram *)

Definition default_buckets : StdSet.t float :=
  StdSet.of_list [0.005; 0.01; 0.025; 0.05; 0.1; 0.25; 0.5; 1; 2.5; 5; 10]%float.

Module Histogram.
Record t := {
  _buckets : StdMap.t float atomic_double.t;
  _sum : atomic_double.t
}.

Definition new (buckets : StdSet.t float) : t :=
  {| _buckets :=
       fold_left (fun m bucket => StdMap.insert bucket 0%float m) buckets
         (StdMap.insert infinity 0%float StdMap.empty);
     _sum := 0%float |}.

Definition observe (value : float) (h : t) : t :=
  {| _buckets :=
       List.map
         (fun bucket : float * atomic_double.t =>
            if (value <=? fst bucket)%float
            then (fst bucket, atomic_double.add_assign 1 (snd bucket))
            else bucket)
         h.(_buckets);
     _sum := atomic_double.add_assign value h.(_sum) |}.

Definition buckets (h : t) : StdMap.t float atomic_double.t := h.(_buckets).

Definition serialize (stream : string) (serializer : MetricSerializer)
    (name : string) (labels : StdSet.t Label) (h : t) : string :=
  fold_left
    (fun stream (p : float * atomic_double.t) =>
       serializer stream name (atomic_double.load (snd p)) labels
         {| name := "le"; value := DoubleText.to_string (fst p) |})
    h.(_buckets) stream.
End Histogram.

(** ** [MetricFamily<T>]

    The instances of a family live in a heap of [T]; the family maps each
    label set to the address of its instance. *)

Module MetricFamily.
Record t := {
  base : Metric.t;
  _labels_names : StdSet.t string;
  _metrics : StdMap.t (StdSet.t Label) ptr
}.

(** [std::for_each(first, last, check_label_name_format)] *)
Fixpoint for_each_check (names : list string) : Result unit :=
  match names with
  | [] => Ok tt
  | n :: names' =>
      match check_label_name_format n with
      | Throw e => Throw e
      | Ok _ => for_each_check names'
      end
  end.

Definition new (name description : string) (type : MetricType.t)
    (labels_names : StdSet.t string) : Result t :=
  match Metric.new name description type with
  | Throw e => Throw e
  | Ok m =>
      match for_each_check labels_names with
      | Throw e => Throw e
      | Ok _ =>
          Ok {| base := m; _labels_names := labels_names;
                _metrics := StdMap.empty |}
      end
  end.

Definition with_metrics (f : t) (m : StdMap.t (StdSet.t Label) ptr) : t :=
  {| base := f.(base); _labels_names := f.(_labels_names); _metrics := m |}.

Section Instances.
Context {T Args : Type}.
(** [T(args...)] *)
Variable construct : Args -> T.
(** [T::serialize] *)
Variable serialize_instance :
  string -> MetricSerializer -> string -> StdSet.t Label -> T -> string.

(** [labels(labels, args...)] on the family [f] and the heap [h] of its
    instances: the value returned or the exception thrown, and the
    family and heap afterwards. *)
Definition labels (labels : StdSet.t Label) (args : Args)
    (f : t) (h : Heap.t T) : Result ptr * (t * Heap.t T) :=
  (* Verify label set size *)
  if negb (StdSet.size labels =? StdSet.size f.(_labels_names))%nat then
    (Throw (invalid_argument "Incorrect number of label given"), (f, h))
  else
    (* Verify label set names *)
    let pred := fun l : Label => negb (StdSet.mem l.(name) f.(_labels_names)) in
    if existsb pred labels then
      (Throw (invalid_argument "Incorrect label combinaison given"), (f, h))
    else
      match StdMap.find labels f.(_metrics) with
      | Some res =>
          (* Return metric if label combinaison already exists *)
          (Ok res, (f, h))
      | None =>
          (* Or create and return a new metric *)
          let '(new_metric, h') := Heap.make_shared (construct args) h in
          (Ok new_metric,
           (with_metrics f (StdMap.insert labels new_metric f.(_metrics)), h'))
      end.

Definition serialize (stream : string) (serializer : MetricSerializer)
    (f : t) (h : Heap.t T) : string :=
  fold_left
    (fun stream (p : StdSet.t Label * ptr) =>
       match Heap.deref h (snd p) with
       | Some x =>
           serialize_instance stream serializer f.(base).(Metric._name) (fst p) x
       | None => stream
       end)
    f.(_metrics) stream.
End Instances.
End MetricFamily.

(** ** The concrete metric classes *)

Module CounterMetric.
Record t := { base : Metric.t; counter : Counter.t }.

Definition new (name description : string) : Result t :=
  match Metric.new name description MetricType.Counter with
  | Throw e => Throw e
  | Ok m => Ok {| base := m; counter := Counter.new |}
  end.

Definition serialize (stream : string) (serializer : MetricSerializer) (c : t) : string :=
  Counter.serialize stream serializer c.(base).(Metric._name) StdSet.empty c.(counter).
End CounterMetric.

Module CounterFamily.
Definition t := MetricFamily.t.

Definition new (name description : string) (labels_names : StdSet.t string) : Result t :=
  MetricFamily.new name description MetricType.Counter labels_names.

Definition labels (labels : StdSet.t Label) (f : t) (h : Heap.t Counter.t) :=
  MetricFamily.labels (fun _ : unit => Counter.new) labels tt f h.

Definition serialize (stream : string) (serializer : MetricSerializer)
    (f : t) (h : Heap.t Counter.t) : string :=
  MetricFamily.serialize Counter.serialize stream serializer f h.
End CounterFamily.

Module GaugeMetric.
Record t := { base : Metric.t; gauge : Gauge.t }.

Definition new (name description : string) (initial_value : float) : Result t :=
  match Metric.new name description MetricType.Gauge with
  | Throw e => Throw e
  | Ok m => Ok {| base := m; gauge := Gauge.new initial_value |}
  end.

Definition serialize (stream : string) (serializer : MetricSerializer) (g : t) : string :=
  Gauge.serialize stream serializer g.(base).(Metric._name) StdSet.empty g.(gauge).
End GaugeMetric.

Module GaugeFamily.
Definition t := MetricFamily.t.

Definition new (name description : string) (labels_names : StdSet.t string) : Result t :=
  MetricFamily.new name description MetricType.Gauge labels_names.

Definition labels (labels : StdSet.t Label) (default_value : float)
    (f : t) (h : Heap.t Gauge.t) :=
  MetricFamily.labels Gauge.new labels default_value f h.

Definition serialize (stream : string) (serializer : MetricSerializer)
    (f : t) (h : Heap.t Gauge.t) : string :=
  MetricFamily.serialize Gauge.serialize stream serializer f h.
End GaugeFamily.

Module HistogramMetric.
Record t := { base : Metric.t; histogram : Histogram.t }.

Definition new (name description : string) (buckets : StdSet.t float) : Result t :=
  match Metric.new name description MetricType.Histogram with
  | Throw e => Throw e
  | Ok m => Ok {| base := m; histogram := Histogram.new buckets |}
  end.

Definition serialize (stream : string) (serializer : MetricSerializer) (h : t) : string :=
  Histogram.serialize stream serializer h.(base).(Metric._name) StdSet.empty h.(histogram).
End HistogramMetric.

Module HistogramFamily.
Record t := { family : MetricFamily.t; _buckets : StdSet.t float }.

Definition new (name description : string) (labels_names : StdSet.t string)
    (buckets : StdSet.t float) : Result t :=
  match MetricFamily.new name description MetricType.Gauge labels_names with
  | Throw e => Throw e
  | Ok f => Ok {| family := f; _buckets := buckets |}
  end.

Definition labels (labels : StdSet.t Label) (f : t) (h : Heap.t Histogram.t)
    : Result ptr * (t * Heap.t Histogram.t) :=
  let '(r, (fam, h')) :=
    MetricFamily.labels Histogram.new labels f.(_buckets) f.(family) h in
  (r, ({| family := fam; _buckets := f.(_buckets) |}, h')).

Definition serialize (stream : string) (serializer : MetricSerializer)
    (f : t) (h : Heap.t Histogram.t) : string :=
  MetricFamily.serialize Histogram.serialize stream serializer f.(family) h.
End HistogramFamily.

(** ** Objects behind [std::shared_ptr<Metric>] *)

(** The dynamic type of a registered metric. *)
Inductive MetricObject :=
  | IsCounterMetric (m : CounterMetric.t)
  | IsCounterFamily (f : CounterFamily.t)
  | IsGaugeMetric (m : GaugeMetric.t)
  | IsGaugeFamily (f : GaugeFamily.t)
  | IsHistogramMetric (m : HistogramMetric.t)
  | IsHistogramFamily (f : HistogramFamily.t).

(** The [Metric] sub-object. *)
Definition base_of (o : MetricObject) : Metric.t :=
  match o with
  | IsCounterMetric m => m.(CounterMetric.base)
  | IsCounterFamily f => f.(MetricFamily.base)
  | IsGaugeMetric m => m.(GaugeMetric.base)
  | IsGaugeFamily f => f.(MetricFamily.base)
  | IsHistogramMetric m => m.(HistogramMetric.base)
  | IsHistogramFamily f => f.(HistogramFamily.family).(MetricFamily.base)
  end.

Definition get_name (o : MetricObject) : string := Metric.get_name (base_of o).
Definition get_description (o : MetricObject) : string := Metric.get_description (base_of o).
Definition get_type (o : MetricObject) : MetricType.t := Metric.get_type (base_of o).

(** Everything that lives behind a pointer. *)
Record Store := {
  objects : Heap.t MetricObject;
  counters : Heap.t Counter.t;
  gauges : Heap.t Gauge.t;
  histograms : Heap.t Histogram.t
}.

(** The virtual [Metric::serialize]. *)
Definition serialize_metric (stream : string) (serializer : MetricSerializer)
    (st : Store) (o : MetricObject) : string :=
  match o with
  | IsCounterMetric m => CounterMetric.serialize stream serializer m
  | IsCounterFamily f => CounterFamily.serialize stream serializer f st.(counters)
  | IsGaugeMetric m => GaugeMetric.serialize stream serializer m
  | IsGaugeFamily f => GaugeFamily.serialize stream serializer f st.(gauges)
  | IsHistogramMetric m => HistogramMetric.serialize stream serializer m
  | IsHistogramFamily f => HistogramFamily.serialize stream serializer f st.(histograms)
  end.

(** ** Registry *)

(** A snapshot: [std::map<std::string, std::weak_ptr<Metric>>]. *)
Definition Snapshot := StdMap.t string ptr.

Module Registry.
Record t := { _register_metrics : StdMap.t string ptr }.

Definition new : t := {| _register_metrics := StdMap.empty |}.

(** [register_metric(metric)]; [None] stands for the dereference of a
    pointer that owns no object, which the header does not guard. *)
Definition register_metric (metric : ptr) (objs : Heap.t MetricObject) (r : t)
    : option (bool * t) :=
  match Heap.deref objs metric with
  | None => None
  | Some o =>
      let metric_name := get_name o in
      match StdMap.find metric_name r.(_register_metrics) with
      | None =>
          Some (true,
                {| _register_metrics :=
                     StdMap.insert metric_name metric r.(_register_metrics) |})
      | Some _ => Some (false, r)
      end
  end.

Definition unregister_metric (metric_name : string) (r : t) : bool * t :=
  (negb (StdMap.erase_count metric_name r.(_register_metrics) =? 0)%nat,
   {| _register_metrics := StdMap.erase metric_name r.(_register_metrics) |}).

(** [None] is the null pointer. *)
Definition get_metric (metric_name : string) (r : t) : option ptr :=
  match StdMap.find metric_name r.(_register_metrics) with
  | Some metric => Some metric
  | None => None
  end.

Definition size (r : t) : nat := StdMap.size r.(_register_metrics).

Definition collect (metrics : Snapshot) (r : t) : Snapshot :=
  fold_left (fun metrics (p : string * ptr) => StdMap.insert (fst p) (snd p) metrics)
    r.(_register_metrics) metrics.
End Registry.

(** ** Text serializer *)

Definition dquote : string := String (ascii_of_nat 34) EmptyString.
Definition backslash : string := String (ascii_of_nat 92) EmptyString.
(** [std::endl] *)
Definition endl : string := String (ascii_of_nat 10) EmptyString.

(** [std::regex_replace(text, std::regex(dquote), backslash dquote)] *)
Fixpoint escape_double_quotes (text : string) : string :=
  match text with
  | EmptyString => EmptyString
  | String c text' =>
      if Ascii.eqb c (ascii_of_nat 34)
      then (backslash ++ dquote ++ escape_double_quotes text')%string
      else String c (escape_double_quotes text')
  end.

Module TextSerializer.
Local Open Scope string_scope.

(** [!label.name.empty()] *)
Definition has_name (label : Label) : bool :=
  negb (String.eqb label.(name) EmptyString).

(** [name="escaped value"] *)
Definition label_text (label : Label) : string :=
  label.(name) ++ "=" ++ dquote ++ escape_double_quotes label.(value) ++ dquote.

Definition metric_serializer : MetricSerializer :=
  fun stream name value labels additional_label =>
    let stream := stream ++ name in
    let stream :=
      if negb (StdSet.size labels =? 0)%nat
         || has_name additional_label
      then
        let stream := stream ++ "{" in
        let '(stream, comma) :=
          fold_left
            (fun (sc : string * string) label =>
               (fst sc ++ snd sc ++ label_text label, ","))
            labels (stream, EmptyString) in
        let stream :=
          if has_name additional_label
          then stream ++ comma ++ label_text additional_label
          else stream in
        stream ++ "}"
      else stream in
    stream ++ " " ++ DoubleText.ostream_double value ++ endl.

Definition serialize (stream : string) (metrics : Snapshot) (st : Store) : string :=
  fold_left
    (fun stream (p : string * ptr) =>
       match Heap.deref st.(objects) (snd p) with
       | Some metric =>
           let stream :=
             stream ++ "# HELP " ++ get_name metric ++ " "
                    ++ get_description metric ++ endl in
           let stream :=
             stream ++ "# TYPE " ++ get_name metric ++ " "
                    ++ metric_type_to_string (get_type metric) ++ endl in
           serialize_metric stream metric_serializer st metric
       | None => stream
       end)
    metrics stream.
End TextSerializer.

(** ** Integers as binary64 numbers

    The counts of a histogram are integers held in [double]s.  [of_Z k] is
    the binary64 number of value [k] for [0 <= k < 2^53], as a sign, a
    53-bit mantissa and an exponent. *)

Module Binary64.
Local Open Scope Z_scope.

Definition of_Z (k : Z) : spec_float :=
  match k with
  | Zpos p =>
      let d := Zpos (digits2_pos p) in
      S754_finite false (Z.to_pos (k * 2 ^ (53 - d))) (d - 53)
  | _ => S754_zero false
  end.

(** [2^53], from which on adding 1 changes nothing. *)
Definition two53 : float := 9007199254740992%float.

(** A mantissa on its way through the right shift of the rounding, with no
    bit lost so far. *)
Definition shifted (m : Z) : shr_record :=
  {| shr_m := m; shr_r := false; shr_s := false |}.
End Binary64.

(** ** Invariants and vocabulary of the properties *)

Module Inv.
(** The names registered in a registry. *)
Definition registered (n : string) (r : Registry.t) : Prop :=
  In n (StdMap.keys r.(Registry._register_metrics)).

(** The representation invariant of the registry's map. *)
Definition registry_ok (r : Registry.t) : Prop :=
  ascending (StdMap.keys r.(Registry._register_metrics)).

(** A label set that passes the two checks of [labels]. *)
Definition accepted (labels : StdSet.t Label) (f : MetricFamily.t) : Prop :=
  StdSet.size labels = StdSet.size f.(MetricFamily._labels_names)
  /\ forall l, In l labels -> In l.(name) f.(MetricFamily._labels_names).

(** A key made of exactly the names of the schema, each once. *)
Definition exactly_schema (key : StdSet.t Label) (names : StdSet.t string) : Prop :=
  Permutation (List.map name key) names.

(** The entries of a family: label set and address of the instance. *)
Definition entries (f : MetricFamily.t) : list (StdSet.t Label * ptr) :=
  f.(MetricFamily._metrics).

(** The labels of a sample line, in the order in which they are written. *)
Definition emitted_labels (labels : StdSet.t Label) (additional_label : Label)
    : list Label :=
  labels ++ (if TextSerializer.has_name additional_label then [additional_label] else []).

(** The label block of a sample line: nothing when no label is written. *)
Definition label_block (labels : StdSet.t Label) (additional_label : Label) : string :=
  match emitted_labels labels additional_label with
  | [] => EmptyString
  | ls => ("{" ++ String.concat "," (List.map TextSerializer.label_text ls) ++ "}")%string
  end.

Definition sample_line (name : string) (value : float) (labels : StdSet.t Label)
    (additional_label : Label) : string :=
  (name ++ label_block labels additional_label ++ " "
   ++ DoubleText.ostream_double value ++ endl)%string.

(** The metrics of a snapshot whose object is still alive, in iteration order. *)
Definition alive (snap : Snapshot) (st : Store) : list MetricObject :=
  flat_map
    (fun p : string * ptr =>
       match Heap.deref st.(objects) (snd p) with
       | Some o => [o]
       | None => []
       end)
    snap.

(** What the serializer writes for one metric. *)
Definition metric_text (st : Store) (metric : MetricObject) : string :=
  ("# HELP " ++ get_name metric ++ " " ++ get_description metric ++ endl
   ++ "# TYPE " ++ get_name metric ++ " "
   ++ metric_type_to_string (get_type metric) ++ endl
   ++ serialize_metric EmptyString TextSerializer.metric_serializer st metric)%string.

(** Every entry of the snapshot is keyed by the name of its metric, as
    [register_metric] and [collect] key them. *)
Definition snapshot_named (snap : Snapshot) (st : Store) : Prop :=
  forall k p o, In (k, p) snap -> Heap.deref st.(objects) p = Some o -> get_name o = k.

Definition registry_named (r : Registry.t) (st : Store) : Prop :=
  snapshot_named r.(Registry._register_metrics) st.

(** The count of a bucket that has been incremented [n] times. *)
Definition count_after (n : nat) : float :=
  Nat.iter n (atomic_double.add_assign 1) 0%float.

(** Counts that do not decrease along the list. *)
Definition nondecreasing (counts : list float) : Prop :=
  StronglySorted (fun a b => (a <=? b)%float = true) counts.

(** Two buckets in map order: the bound grows, and the second has been
    incremented whenever the first was. *)
Definition cumulative (p q : float * atomic_double.t) : Prop :=
  (fst p <? fst q)%float = true
  /\ exists n k, snd p = count_after n /\ snd q = count_after (n + k).

(** The histogram after a sequence of observations. *)
Definition observed (buckets : StdSet.t float) (observations : list float)
    : Histogram.t :=
  fold_left (fun h x => Histogram.observe x h) observations (Histogram.new buckets).

(** The body of the loop of [observe]. *)
Definition observe_bucket (value : float) (bucket : float * atomic_double.t)
    : float * atomic_double.t :=
  if (value <=? fst bucket)%float
  then (fst bucket, atomic_double.add_assign 1 (snd bucket))
  else bucket.
End Inv.

(** ** The scenarios of the test suite *)

Module Scenario.
Definition lbl (n v : string) : Label := {| name := n; value := v |}.

(** [GaugeFamily("my_gauge", "used for tests", {"l1", "l2"})] *)
Definition family : GaugeFamily.t :=
  {| MetricFamily.base :=
       {| Metric._name := "my_gauge"; Metric._description := "used for tests";
          Metric._type := MetricType.Gauge |};
     MetricFamily._labels_names := ["l1"; "l2"];
     MetricFamily._metrics := [] |}.

(** [{{"l1", "0"}, {"l2", "0"}}] *)
Definition l1_0_l2_0 : StdSet.t Label := StdSet.of_list [lbl "l1" "0"; lbl "l2" "0"].

(** [{{"l1", "1"}, {"l2", "2"}}] *)
Definition l1_1_l2_2 : StdSet.t Label := StdSet.of_list [lbl "l1" "1"; lbl "l2" "2"].

(** A label set that names [l1] twice and [l2] never. *)
Definition l1_twice : StdSet.t Label := StdSet.of_list [lbl "l1" "0"; lbl "l1" "1"].

(** [GaugeMetric("my_gauge", "Test gauge", 42)] and
    [GaugeMetric("my_gauge", "Test gauge 2", 2)] *)
Definition gauge : GaugeMetric.t :=
  {| GaugeMetric.base :=
       {| Metric._name := "my_gauge"; Metric._description := "Test gauge";
          Metric._type := MetricType.Gauge |};
     GaugeMetric.gauge := Gauge.new 42 |}.

Definition gauge2 : GaugeMetric.t :=
  {| GaugeMetric.base :=
       {| Metric._name := "my_gauge"; Metric._description := "Test gauge 2";
          Metric._type := MetricType.Gauge |};
     GaugeMetric.gauge := Gauge.new 2 |}.

(** Both gauges allocated, [gauge] at address 0 and [gauge2] at address 1. *)
Definition objs : Heap.t MetricObject :=
  [Some (IsGaugeMetric gauge); Some (IsGaugeMetric gauge2)].

Definition store : Store :=
  {| objects := objs; counters := Heap.empty; gauges := Heap.empty;
     histograms := Heap.empty |}.

(** The registry after [register_metric(gauge)]. *)
Definition registry : Registry.t :=
  {| Registry._register_metrics := [("my_gauge", 0)] |}.

(** [CounterMetric("requests_total", "Requests")], registered before
    [GaugeMetric("active", "Active sessions", 3)]. *)
Definition two_objs : Heap.t MetricObject :=
  [Some (IsCounterMetric
           {| CounterMetric.base :=
                {| Metric._name := "requests_total"; Metric._description := "Requests";
                   Metric._type := MetricType.Counter |};
              CounterMetric.counter := Counter.add 7 Counter.new |});
   Some (IsGaugeMetric
           {| GaugeMetric.base :=
                {| Metric._name := "active"; Metric._description := "Active sessions";
                   Metric._type := MetricType.Gauge |};
              GaugeMetric.gauge := Gauge.new 3 |})].

Definition two_store : Store :=
  {| objects := two_objs; counters := Heap.empty; gauges := Heap.empty;
     histograms := Heap.empty |}.

Definition two_registry : Registry.t :=
  match Registry.register_metric 0 two_objs Registry.new with
  | Some (_, r) =>
      match Registry.register_metric 1 two_objs r with
      | Some (_, r') => r'
      | None => r
      end
  | None => Registry.new
  end.
End Scenario.

(** ** Vocabulary of the further properties *)

Module More.
(** Every entry of a family refers to a live instance of the heap, and no
    two entries share an instance. *)
Definition family_wf {T : Type} (f : MetricFamily.t) (h : Heap.t T) : Prop :=
  (forall ls p, In (ls, p) f.(MetricFamily._metrics) ->
                exists x, Heap.deref h p = Some x)
  /\ (forall ls1 ls2 p, In (ls1, p) f.(MetricFamily._metrics) ->
                        In (ls2, p) f.(MetricFamily._metrics) -> ls1 = ls2).

Definition is_dquote (c : ascii) : bool := Ascii.eqb c (ascii_of_nat 34).
Definition is_backslash (c : ascii) : bool := Ascii.eqb c (ascii_of_nat 92).

(** No double quote occurs in the text. *)
Fixpoint quote_free (text : string) : bool :=
  match text with
  | EmptyString => true
  | String c text' => negb (is_dquote c) && quote_free text'
  end.

(** Every double quote of the text comes right after a backslash;
    [after_backslash] tells whether the character before the text is one. *)
Fixpoint quotes_follow_backslash (after_backslash : bool) (text : string) : bool :=
  match text with
  | EmptyString => true
  | String c text' =>
      (if is_dquote c then after_backslash else true)
      && quotes_follow_backslash (is_backslash c) text'
  end.

Fixpoint count_quotes (text : string) : nat :=
  match text with
  | EmptyString => O
  | String c text' => (if is_dquote c then 1 else 0) + count_quotes text'
  end.

(** For each double quote of the text, in order, the number of backslashes
    that come right before it; [run] is the number of backslashes that end
    what comes before the text. *)
Fixpoint quote_runs (run : nat) (text : string) : list nat :=
  match text with
  | EmptyString => []
  | String c text' =>
      if is_dquote c then run :: quote_runs 0 text'
      else if is_backslash c then quote_runs (S run) text'
      else quote_runs 0 text'
  end.

(** The schedule that lets each of [n] threads run its three steps (load,
    read of [current], exchange) before the next thread starts. *)
Definition serial (n : nat) : list nat :=
  flat_map (fun i => [i; i; i]) (seq 0 n).

(** The value a cell holds after the operations applied one after the other. *)
Definition applied (initial : float) (ops : list Threads.op) : float :=
  fold_left (fun acc o => Threads.target_of o acc) ops initial.

(** The observations that compare with the bounds, that is all but the NaNs. *)
Definition comparable (observations : list float) : list float :=
  List.filter (fun v => negb (PrimFloat.is_nan v)) observations.

(** The entries of a snapshot whose object is alive. *)
Definition live_entries (snap : Snapshot) (st : Store) : Snapshot :=
  List.filter
    (fun p : string * ptr =>
       match Heap.deref st.(objects) (snd p) with Some _ => true | None => false end)
    snap.


(** The characters that would break a line of the exposition text. *)
Definition breaks_line (c : ascii) : bool :=
  existsb (Ascii.eqb c)
    [" "%char; "{"%char; "}"%char; "="%char; ","%char; "#"%char;
     ascii_of_nat 9; ascii_of_nat 10; ascii_of_nat 13; ascii_of_nat 34;
     ascii_of_nat 92].
End More.

(** ** [atomic_double::change] with an exchange that may fail spuriously

    [compare_exchange_weak] may fail although the cell holds [current]; the
    list given to [change] tells of each attempt of the loop whether it does.
    No other thread writes to the cell. *)

Module Weak.
(** [compare_exchange_weak(current, target_value)]: the cell, [current] and
    the result after the attempt.  A failed attempt, spurious or not, loads
    the cell into [current]. *)
Definition compare_exchange_weak (spurious : bool) (cell current target_value : float)
    : float * float * bool :=
  if negb spurious && Threads.same_representation cell current
  then (target_value, current, true)
  else (cell, cell, false).

(** The attempts of [for (...; !this->compare_exchange_weak(current,
    target_value););]: the cell at the end and whether the loop has ended
    within the attempts listed. *)
Fixpoint loop (spurious : list bool) (cell current target_value : float)
    : float * bool :=
  match spurious with
  | [] => (cell, false)
  | s :: rest =>
      let '(cell', current', exchanged) :=
        compare_exchange_weak s cell current target_value in
      if exchanged then (cell', true) else loop rest cell' current' target_value
  end.

(** [change(target_value)]: the loop entered with [double current = *this]. *)
Definition change (spurious : list bool) (target_value : float) (cell : float)
    : float * bool :=
  loop spurious cell cell target_value.
End Weak.

(** ** The sample line as the exposition format words it

    [<name>{label1="v1",label2="v2"} <value>]: the labels of the label set
    in canonical order, ascending by (name, value), then the extra label of
    the kind when there is one; no block at all when no label is written; a
    double quote of a value written as a backslash and the quote, nothing
    else escaped.  These definitions are written from that description and
    use nothing of [TextSerializer]. *)

Module Exposition.
Local Open Scope string_scope.








End Exposition.

(* ================================================================== *)
(** * Part II: properties *)
(* ================================================================== *)

(** ** Comparison objects that are strict total orders *)

Class LessLaws (K : Type) `{Less K} : Prop := {
  less_irrefl : forall a, less a a = false;
  less_trans : forall a b c, less a b = true -> less b c = true -> less a c = true;
  less_total : forall a b, less a b = false -> less b a = false -> a = b
}.

(** Transitivity alone, which is all that keeps a container ascending: the
    comparison of [double] has it although it is not total on NaN and on the
    two zeros. *)
Class LessTrans (K : Type) `{Less K} : Prop :=
  less_transitive : forall a b c : K,
    less a b = true -> less b c = true -> less a c = true.

#[export] Instance LessLaws_LessTrans {K : Type} `{LessLaws K} : LessTrans K.
Proof. intros a b c. apply less_trans. Qed.

Section OrderFacts.
Context {K : Type} `{LessLaws K}.

Lemma less_asym (a b : K) : less a b = true -> less b a = false.
Proof.
  intros Hab. destruct (less b a) eqn:Hba; [|reflexivity].
  rewrite <- (less_irrefl a). symmetry. eapply less_trans; eassumption.
Qed.

Lemma equiv_refl (a : K) : equiv a a = true.
Proof. unfold equiv. now rewrite less_irrefl. Qed.

Lemma equiv_eq (a b : K) : equiv a b = true <-> a = b.
Proof.
  split.
  - unfold equiv. intros E. apply andb_true_iff in E as [E1 E2].
    apply negb_true_iff in E1, E2. now apply less_total.
  - intros ->. apply equiv_refl.
Qed.

Lemma equiv_neq (a b : K) : equiv a b = false <-> a <> b.
Proof.
  rewrite <- equiv_eq. destruct (equiv a b); split; congruence.
Qed.

Lemma less_neq (a b : K) : less a b = true -> a <> b.
Proof. intros Hab ->. rewrite less_irrefl in Hab. discriminate. Qed.

Lemma less_not_equiv (a b : K) : less a b = true -> equiv a b = false.
Proof. intros Hab. apply equiv_neq. now apply less_neq. Qed.

Lemma less_not_equiv' (a b : K) : less a b = true -> equiv b a = false.
Proof. intros Hab. apply equiv_neq. intros ->. now apply less_neq in Hab. Qed.
End OrderFacts.

(** *** Strings *)

Lemma ascii_compare_refl (c : ascii) : Ascii.compare c c = Eq.
Proof. unfold Ascii.compare. apply N.compare_refl. Qed.

Lemma string_compare_refl (s : string) : String.compare s s = Eq.
Proof.
  induction s as [|c s IH]; simpl; [reflexivity|].
  now rewrite ascii_compare_refl.
Qed.

Lemma string_compare_trans (a : string) :
  forall b c, String.compare a b = Lt -> String.compare b c = Lt ->
              String.compare a c = Lt.
Proof.
  induction a as [|x a IH]; intros [|y b] [|z c]; simpl; try congruence.
  unfold Ascii.compare.
  destruct (N.compare_spec (N_of_ascii x) (N_of_ascii y)) as [Exy|Lxy|Gxy];
    try discriminate;
    destruct (N.compare_spec (N_of_ascii y) (N_of_ascii z)) as [Eyz|Lyz|Gyz];
    try discriminate; intros H1 H2.
  - rewrite Exy, Eyz, N.compare_refl. now apply IH with b.
  - rewrite Exy. now apply N.compare_lt_iff in Lyz as ->.
  - rewrite <- Eyz. now apply N.compare_lt_iff in Lxy as ->.
  - assert (L : (N_of_ascii x < N_of_ascii z)%N) by lia.
    now apply N.compare_lt_iff in L as ->.
Qed.

#[export] Instance string_LessLaws : LessLaws string.
Proof.
  split; unfold less, string_Less, String.ltb.
  - intros a. now rewrite string_compare_refl.
  - intros a b c Hab Hbc.
    destruct (String.compare a b) eqn:E1; try discriminate.
    destruct (String.compare b c) eqn:E2; try discriminate.
    now rewrite (string_compare_trans a b c).
  - intros a b Hab Hba. apply String.compare_eq_iff.
    rewrite String.compare_antisym in Hba.
    destruct (String.compare a b); simpl in *; congruence.
Qed.

(** *** Labels *)

Lemma Label_less_eq (a b : Label) :
  less a b =
  if less a.(name) b.(name) then true
  else if less b.(name) a.(name) then false
  else less a.(value) b.(value).
Proof. reflexivity. Qed.

#[export] Instance Label_LessLaws : LessLaws Label.
Proof.
  split.
  - intros a. rewrite Label_less_eq. now rewrite !less_irrefl.
  - intros [n1 v1] [n2 v2] [n3 v3]. rewrite !Label_less_eq. simpl.
    destruct (less n1 n2) eqn:L12.
    + intros _. destruct (less n2 n3) eqn:L23.
      * intros _. now rewrite (less_trans _ _ _ L12 L23).
      * destruct (less n3 n2) eqn:L32; [discriminate|].
        intros _. rewrite (less_total _ _ L23 L32) in L12. now rewrite L12.
    + destruct (less n2 n1) eqn:L21; [discriminate|].
      pose proof (less_total _ _ L12 L21) as ->. intros Hv12.
      destruct (less n2 n3) eqn:L23; [reflexivity|].
      destruct (less n3 n2); [discriminate|].
      intros Hv23. eapply less_trans; eassumption.
  - intros [n1 v1] [n2 v2]. rewrite !Label_less_eq. simpl.
    destruct (less n1 n2) eqn:L12; [discriminate|].
    destruct (less n2 n1) eqn:L21; [discriminate|].
    intros Hv12 Hv21. f_equal; now apply less_total.
Qed.

(** *** Sets as keys *)

Section LexFacts.
Context {K : Type} `{LessLaws K}.

Lemma lex_irrefl (a : list K) : lexicographical_compare a a = false.
Proof. induction a as [|x a IH]; simpl; [reflexivity|]. now rewrite less_irrefl. Qed.

Lemma lex_trans (a : list K) : forall b c,
  lexicographical_compare a b = true -> lexicographical_compare b c = true ->
  lexicographical_compare a c = true.
Proof.
  induction a as [|x a IH]; intros [|y b] [|z c]; simpl; try congruence.
  destruct (less x y) eqn:Lxy.
  - intros _. destruct (less y z) eqn:Lyz.
    + intros _. now rewrite (less_trans _ _ _ Lxy Lyz).
    + destruct (less z y) eqn:Lzy; [discriminate|].
      rewrite <- (less_total _ _ Lyz Lzy). now rewrite Lxy.
  - destruct (less y x) eqn:Lyx; [discriminate|].
    pose proof (less_total _ _ Lxy Lyx) as ->. intros Hab.
    destruct (less y z) eqn:Lyz; [reflexivity|].
    destruct (less z y); [discriminate|]. now apply IH.
Qed.

Lemma lex_total (a : list K) : forall b,
  lexicographical_compare a b = false -> lexicographical_compare b a = false ->
  a = b.
Proof.
  induction a as [|x a IH]; intros [|y b]; simpl; try congruence.
  destruct (less x y) eqn:Lxy; [discriminate|].
  destruct (less y x) eqn:Lyx; [discriminate|].
  intros Hab Hba. f_equal; [now apply less_total | now apply IH].
Qed.

#[export] Instance set_LessLaws : LessLaws (list K).
Proof.
  split; unfold less, set_Less.
  - apply lex_irrefl.
  - intros a b c. apply lex_trans.
  - apply lex_total.
Qed.
End LexFacts.

(** ** Facts on [std::set] and [std::map] *)

Section InsertFacts.
Context {K : Type} `{LessTrans K}.


Lemma ascending_inv (x : K) (l : list K) :
  ascending (x :: l) -> ascending l /\ Forall (fun y => less x y = true) l.
Proof. intros A. inversion A; subst. now split. Qed.

Lemma set_insert_In (k x : K) (s : StdSet.t K) :
  In x (StdSet.insert k s) -> x = k \/ In x s.
Proof.
  induction s as [|y s IH]; simpl.
  - intuition.
  - destruct (less k y) eqn:Lky; simpl; [intuition|].
    destruct (less y k) eqn:Lyk; simpl; [|intuition].
    intros [->|Hin]; [tauto|]. apply IH in Hin. tauto.
Qed.

Lemma set_insert_ascending (k : K) (s : StdSet.t K) :
  ascending s -> ascending (StdSet.insert k s).
Proof.
  induction s as [|y s IH]; simpl; intros A.
  - repeat constructor.
  - apply ascending_inv in A as A'. destruct A' as [As Fy].
    destruct (less k y) eqn:Lky.
    + constructor; [assumption|]. constructor; [assumption|].
      eapply Forall_impl; [|exact Fy]. intros z Hz.
      eapply less_transitive; eassumption.
    + destruct (less y k) eqn:Lyk; [|assumption].
      constructor; [now apply IH|].
      apply Forall_forall. intros z Hz. apply set_insert_In in Hz as [->|Hz].
      * assumption.
      * rewrite Forall_forall in Fy. now apply Fy.
Qed.



Context {V : Type}.
Implicit Types (m : StdMap.t K V) (k : K) (v : V).

Lemma map_insert_In k v m (x : K * V) :
  In x (StdMap.insert k v m) -> x = (k, v) \/ In x m.
Proof.
  induction m as [|[k' v'] m IH]; simpl; [intuition|].
  destruct (less k k'); simpl; [intuition|].
  destruct (less k' k); simpl; intuition.
Qed.

(** [insert] never removes nor changes an entry. *)
Lemma map_insert_mono k v m (x : K * V) : In x m -> In x (StdMap.insert k v m).
Proof.
  induction m as [|[k' v'] m IH]; simpl; [contradiction|].
  destruct (less k k'); simpl; [intuition|].
  destruct (less k' k); simpl; intuition.
Qed.

Lemma map_insert_keys k v m :
  StdMap.keys (StdMap.insert k v m) = StdSet.insert k (StdMap.keys m).
Proof.
  induction m as [|[k' v'] m IH]; simpl; [reflexivity|].
  destruct (less k k'); [reflexivity|].
  destruct (less k' k); simpl; [now rewrite IH | reflexivity].
Qed.

Lemma map_insert_ascending k v m :
  ascending (StdMap.keys m) -> ascending (StdMap.keys (StdMap.insert k v m)).
Proof. rewrite map_insert_keys. apply set_insert_ascending. Qed.
End InsertFacts.

Section SetFacts.
Context {K : Type} `{LessLaws K}.

Lemma set_mem_In (k : K) (s : StdSet.t K) : StdSet.mem k s = true <-> In k s.
Proof.
  induction s as [|x s IH]; simpl; [intuition discriminate|].
  destruct (equiv k x) eqn:E.
  - apply equiv_eq in E as ->. intuition.
  - apply equiv_neq in E. rewrite IH. intuition congruence.
Qed.

Lemma ascending_NoDup (l : list K) : ascending l -> NoDup l.
Proof.
  induction l as [|x l IH]; intros A; constructor.
  - apply ascending_inv in A as [_ F]. rewrite Forall_forall in F.
    intros Hin. apply F in Hin. rewrite less_irrefl in Hin. discriminate.
  - apply IH. now apply ascending_inv in A.
Qed.
End SetFacts.

Section MapFacts.
Context {K V : Type} `{LessLaws K}.
Implicit Types (m : StdMap.t K V) (k : K) (v : V).

Lemma map_find_In k v m : StdMap.find k m = Some v -> In (k, v) m.
Proof.
  induction m as [|[k' v'] m IH]; simpl; [discriminate|].
  destruct (equiv k k') eqn:E.
  - apply equiv_eq in E as ->. intros [= ->]. now left.
  - intros Hf. right. now apply IH.
Qed.

Lemma map_find_None_keys k m :
  StdMap.find k m = None <-> ~ In k (StdMap.keys m).
Proof.
  induction m as [|[k' v'] m IH]; simpl; [intuition|].
  destruct (equiv k k') eqn:E.
  - apply equiv_eq in E as ->. intuition discriminate.
  - apply equiv_neq in E. rewrite IH. intuition congruence.
Qed.

Lemma map_In_find k v m :
  ascending (StdMap.keys m) -> In (k, v) m -> StdMap.find k m = Some v.
Proof.
  induction m as [|[k' v'] m IH]; simpl; [contradiction|].
  intros A [[= -> ->]|Hin].
  - now rewrite equiv_refl.
  - apply ascending_inv in A as [A F]. rewrite Forall_forall in F.
    assert (L : less k' k = true) by (apply F; now apply (in_map fst) in Hin).
    rewrite (less_not_equiv' _ _ L). now apply IH.
Qed.

Lemma map_insert_present k v v0 m :
  ascending (StdMap.keys m) ->
  StdMap.find k m = Some v0 -> StdMap.insert k v m = m.
Proof.
  induction m as [|[k' v'] m IH]; simpl; [discriminate|].
  intros A. apply ascending_inv in A as [A F].
  destruct (equiv k k') eqn:E.
  - apply equiv_eq in E as ->. now rewrite less_irrefl.
  - intros Hf. apply map_find_In in Hf as Hin.
    rewrite Forall_forall in F.
    assert (L : less k' k = true) by (apply F; now apply (in_map fst) in Hin).
    rewrite (less_asym _ _ L), L. f_equal. now apply IH.
Qed.

Lemma map_find_insert_new k v m :
  StdMap.find k m = None -> StdMap.find k (StdMap.insert k v m) = Some v.
Proof.
  induction m as [|[k' v'] m IH]; simpl.
  - now rewrite equiv_refl.
  - destruct (equiv k k') eqn:E; [discriminate|]. intros Hf.
    destruct (less k k') eqn:L1; simpl.
    + now rewrite equiv_refl.
    + destruct (less k' k) eqn:L2; simpl.
      * rewrite E. now apply IH.
      * unfold equiv in E. rewrite L1, L2 in E. discriminate.
Qed.

Lemma map_find_insert_other k k2 v m :
  k2 <> k -> StdMap.find k2 (StdMap.insert k v m) = StdMap.find k2 m.
Proof.
  intros N. apply equiv_neq in N.
  induction m as [|[k' v'] m IH]; simpl.
  - now rewrite N.
  - destruct (less k k'); simpl; [now rewrite N|].
    destruct (less k' k); simpl; [|reflexivity].
    now rewrite IH.
Qed.

Lemma map_insert_length k v m :
  StdMap.find k m = None ->
  StdMap.size (StdMap.insert k v m) = S (StdMap.size m).
Proof.
  unfold StdMap.size.
  induction m as [|[k' v'] m IH]; simpl; [reflexivity|].
  destruct (equiv k k') eqn:E; [discriminate|]. intros Hf.
  destruct (less k k') eqn:L1; simpl; [reflexivity|].
  destruct (less k' k) eqn:L2; simpl.
  - now rewrite IH.
  - unfold equiv in E. rewrite L1, L2 in E. discriminate.
Qed.

Lemma map_erase_In k m (x : K * V) : In x (StdMap.erase k m) -> In x m.
Proof.
  induction m as [|[k' v'] m IH]; simpl; [contradiction|].
  destruct (equiv k k'); simpl; intuition.
Qed.

Lemma map_erase_ascending k m :
  ascending (StdMap.keys m) -> ascending (StdMap.keys (StdMap.erase k m)).
Proof.
  induction m as [|[k' v'] m IH]; simpl; intros A; [assumption|].
  apply ascending_inv in A as [A F].
  destruct (equiv k k'); simpl; [assumption|].
  constructor; [now apply IH|].
  rewrite Forall_forall in *. intros y Hy. apply F.
  apply in_map_iff in Hy as [[y' w] [<- Hy]].
  apply map_erase_In in Hy. now apply (in_map fst) in Hy.
Qed.

Lemma map_erase_absent k m : StdMap.find k m = None -> StdMap.erase k m = m.
Proof.
  induction m as [|[k' v'] m IH]; simpl; [reflexivity|].
  destruct (equiv k k'); [discriminate|]. intros Hf. now rewrite IH.
Qed.

Lemma map_erase_size k v m :
  StdMap.find k m = Some v -> S (StdMap.size (StdMap.erase k m)) = StdMap.size m.
Proof.
  unfold StdMap.size.
  induction m as [|[k' v'] m IH]; simpl; [discriminate|].
  destruct (equiv k k'); simpl; [reflexivity|]. intros Hf. now rewrite IH.
Qed.

Lemma map_find_erase_same k m :
  ascending (StdMap.keys m) -> StdMap.find k (StdMap.erase k m) = None.
Proof.
  induction m as [|[k' v'] m IH]; simpl; intros A; [reflexivity|].
  apply ascending_inv in A as [A F].
  destruct (equiv k k') eqn:E; simpl.
  - apply equiv_eq in E as ->. apply map_find_None_keys. intros Hin.
    rewrite Forall_forall in F. apply F in Hin.
    rewrite less_irrefl in Hin. discriminate.
  - rewrite E. now apply IH.
Qed.

Lemma map_find_erase_other k k2 m :
  k2 <> k -> StdMap.find k2 (StdMap.erase k m) = StdMap.find k2 m.
Proof.
  intros N. induction m as [|[k' v'] m IH]; simpl; [reflexivity|].
  destruct (equiv k k') eqn:E; simpl.
  - apply equiv_eq in E as <-. apply equiv_neq in N. now rewrite N.
  - now rewrite IH.
Qed.

Lemma map_erase_count k m :
  StdMap.erase_count k m =
  match StdMap.find k m with Some _ => 1 | None => 0 end.
Proof.
  unfold StdMap.erase_count. destruct (StdMap.find k m) eqn:Hf.
  - rewrite <- (map_erase_size _ _ _ Hf). lia.
  - rewrite (map_erase_absent _ _ Hf). lia.
Qed.
End MapFacts.

(** ** Registry *)

Lemma registry_new_ok : Inv.registry_ok Registry.new.
Proof. constructor. Qed.

Lemma get_metric_find (n : string) (r : Registry.t) :
  Registry.get_metric n r = StdMap.find n r.(Registry._register_metrics).
Proof. unfold Registry.get_metric. now destruct (StdMap.find _ _). Qed.

Lemma registered_get_metric (n : string) (r : Registry.t) :
  ~ Inv.registered n r <-> Registry.get_metric n r = None.
Proof. rewrite get_metric_find. symmetry. apply map_find_None_keys. Qed.

Lemma register_metric_spec (objs : Heap.t MetricObject) (r : Registry.t)
    (metric : ptr) (o : MetricObject) :
  Heap.deref objs metric = Some o ->
  exists b r',
    Registry.register_metric metric objs r = Some (b, r')
    /\ (b = true <-> ~ Inv.registered (get_name o) r)
    /\ (b = true ->
        Registry.get_metric (get_name o) r' = Some metric
        /\ (forall n, n <> get_name o ->
                      Registry.get_metric n r' = Registry.get_metric n r)
        /\ Registry.size r' = S (Registry.size r))
    /\ (b = false -> r' = r)
    /\ (Inv.registry_ok r -> Inv.registry_ok r').
Proof.
  intros Hd. unfold Registry.register_metric. rewrite Hd.
  destruct (StdMap.find (get_name o) r.(Registry._register_metrics)) eqn:Hf.
  - exists false, r. repeat split; try congruence; try tauto.
    intros N. apply registered_get_metric in N. rewrite get_metric_find in N.
    congruence.
  - eexists true, _. split; [reflexivity|]. repeat split; try congruence.
    + intros _. apply registered_get_metric. now rewrite get_metric_find.
    + rewrite get_metric_find. simpl. now apply map_find_insert_new.
    + intros n Hn. rewrite !get_metric_find. simpl.
      now apply map_find_insert_other.
    + unfold Registry.size. simpl. now apply map_insert_length.
    + unfold Inv.registry_ok. simpl. apply map_insert_ascending.
Qed.

Lemma unregister_metric_spec (r : Registry.t) (n : string) :
  Inv.registry_ok r ->
  (fst (Registry.unregister_metric n r) = true <-> Inv.registered n r)
  /\ Registry.get_metric n (snd (Registry.unregister_metric n r)) = None
  /\ (forall n', n' <> n ->
        Registry.get_metric n' (snd (Registry.unregister_metric n r))
        = Registry.get_metric n' r)
  /\ (~ Inv.registered n r -> snd (Registry.unregister_metric n r) = r)
  /\ Inv.registry_ok (snd (Registry.unregister_metric n r)).
Proof.
  intros Hok. unfold Registry.unregister_metric. simpl.
  rewrite map_erase_count. repeat split.
  - intros Hb. destruct (StdMap.find n _) eqn:Hf; [|discriminate].
    apply map_find_In in Hf. now apply (in_map fst) in Hf.
  - intros Hreg. destruct (StdMap.find n _) eqn:Hf; [reflexivity|].
    exfalso. revert Hreg. apply registered_get_metric. now rewrite get_metric_find.
  - rewrite get_metric_find. simpl. now apply map_find_erase_same.
  - intros n' Hn. rewrite !get_metric_find. simpl. now apply map_find_erase_other.
  - intros N. apply registered_get_metric in N. rewrite get_metric_find in N.
    destruct r as [m]. simpl in *. f_equal. now apply map_erase_absent.
  - unfold Inv.registry_ok. simpl. now apply map_erase_ascending.
Qed.

(** C7. [register_metric] returns [true] and stores the metric exactly when
    no entry has its name, and returns [false] leaving the registry as it was
    when the name is taken, so that [get_metric] still gives the metric first
    registered; [unregister_metric] returns [true] exactly when an entry of
    that name existed, and the name is absent afterwards; [get_metric] of an
    absent name is the null pointer. *)
Theorem registry_contract (objs : Heap.t MetricObject) (r : Registry.t)
    (metric : ptr) (o : MetricObject) :
  Inv.registry_ok r ->
  Heap.deref objs metric = Some o ->
  (exists b r',
     Registry.register_metric metric objs r = Some (b, r')
     /\ (b = true <-> ~ Inv.registered (get_name o) r)
     /\ (b = true ->
         Registry.get_metric (get_name o) r' = Some metric
         /\ forall n, n <> get_name o ->
                      Registry.get_metric n r' = Registry.get_metric n r)
     /\ (b = false ->
         r' = r /\ exists original,
           Registry.get_metric (get_name o) r' = Some original
           /\ Registry.get_metric (get_name o) r = Some original))
  /\ (forall n,
        let '(b, r') := Registry.unregister_metric n r in
        (b = true <-> Inv.registered n r)
        /\ Registry.get_metric n r' = None
        /\ (forall n', n' <> n -> Registry.get_metric n' r' = Registry.get_metric n' r)
        /\ (b = false -> r' = r))
  /\ (forall n, ~ Inv.registered n r -> Registry.get_metric n r = None).
Proof.
  intros Hok Hd. split; [|split].
  - destruct (register_metric_spec objs r metric o Hd)
      as (b & r' & Hreg & Hb & Htrue & Hfalse & _).
    exists b, r'. split; [exact Hreg|]. split; [exact Hb|]. split.
    + intros Eb. destruct (Htrue Eb) as (H1 & H2 & _). now split.
    + intros Eb. pose proof (Hfalse Eb) as ->. split; [reflexivity|].
      destruct (Registry.get_metric (get_name o) r) as [p|] eqn:Hg.
      * now exists p.
      * apply registered_get_metric in Hg. apply Hb in Hg. congruence.
  - intros n. pose proof (unregister_metric_spec r n Hok) as (H1 & H2 & H3 & H4 & _).
    destruct (Registry.unregister_metric n r) as [b r'] eqn:E. simpl in *.
    repeat split; try tauto; try assumption.
    intros Eb. apply H4. intros Hr. apply H1 in Hr. congruence.
  - intros n. apply registered_get_metric.
Qed.

Lemma registry_contract_witness :
  Inv.registry_ok Scenario.registry
  /\ Heap.deref Scenario.objs 1 = Some (IsGaugeMetric Scenario.gauge2)
  /\ (exists b r',
        Registry.register_metric 1 Scenario.objs Scenario.registry = Some (b, r')
        /\ (b = true <-> ~ Inv.registered "my_gauge" Scenario.registry)
        /\ (b = true ->
            Registry.get_metric "my_gauge" r' = Some 1
            /\ forall n, n <> "my_gauge" ->
                         Registry.get_metric n r' = Registry.get_metric n Scenario.registry)
        /\ (b = false ->
            r' = Scenario.registry /\ exists original,
              Registry.get_metric "my_gauge" r' = Some original
              /\ Registry.get_metric "my_gauge" Scenario.registry = Some original)).
Proof.
  assert (Hok : Inv.registry_ok Scenario.registry) by (repeat constructor).
  assert (Hd : Heap.deref Scenario.objs 1 = Some (IsGaugeMetric Scenario.gauge2))
    by reflexivity.
  split; [exact Hok|]. split; [exact Hd|].
  exact (proj1 (registry_contract Scenario.objs Scenario.registry 1
                  (IsGaugeMetric Scenario.gauge2) Hok Hd)).
Defined.

(** ** Metric families *)

Section FamilyFacts.
Context {T Args : Type} (construct : Args -> T).
Implicit Types (f : MetricFamily.t) (h : Heap.t T) (labels : StdSet.t Label).

Lemma existsb_unknown_name labels f :
  existsb (fun l : Label => negb (StdSet.mem l.(name) f.(MetricFamily._labels_names)))
    labels = true
  <-> exists l, In l labels /\ ~ In l.(name) f.(MetricFamily._labels_names).
Proof.
  rewrite existsb_exists. split; intros (l & Hl & Hn); exists l; split; trivial.
  - apply negb_true_iff in Hn. intros Hin. apply set_mem_In in Hin. congruence.
  - apply negb_true_iff. destruct (StdSet.mem _ _) eqn:E; [|reflexivity].
    apply set_mem_In in E. contradiction.
Qed.

Lemma existsb_unknown_name_false labels f :
  existsb (fun l : Label => negb (StdSet.mem l.(name) f.(MetricFamily._labels_names)))
    labels = false
  <-> forall l, In l labels -> In l.(name) f.(MetricFamily._labels_names).
Proof.
  split.
  - intros E l Hl.
    destruct (in_dec string_dec l.(name) f.(MetricFamily._labels_names)) as [|N];
      [assumption|].
    assert (X : exists l, In l labels /\ ~ In l.(name) f.(MetricFamily._labels_names))
      by (now exists l).
    apply existsb_unknown_name in X. congruence.
  - intros A. destruct (existsb _ _) eqn:E; [|reflexivity].
    apply existsb_unknown_name in E as (l & Hl & Hn). now apply A in Hl.
Qed.

(** What [labels] does with a label set that passes the checks. *)
Lemma labels_accepted labels args f h :
  Inv.accepted labels f ->
  MetricFamily.labels construct labels args f h =
  match StdMap.find labels f.(MetricFamily._metrics) with
  | Some res => (Ok res, (f, h))
  | None =>
      (Ok (List.length h),
       (MetricFamily.with_metrics f
          (StdMap.insert labels (List.length h) f.(MetricFamily._metrics)),
        h ++ [Some (construct args)]))
  end.
Proof.
  intros [Hsize Hnames]. unfold MetricFamily.labels.
  rewrite Hsize, Nat.eqb_refl. simpl.
  apply existsb_unknown_name_false in Hnames. rewrite Hnames.
  reflexivity.
Qed.

(** What [labels] does with any other label set. *)
Lemma labels_rejected labels args f h :
  ~ Inv.accepted labels f ->
  exists what,
    MetricFamily.labels construct labels args f h
    = (Throw (invalid_argument what), (f, h)).
Proof.
  intros N. unfold MetricFamily.labels.
  destruct (StdSet.size labels =? StdSet.size f.(MetricFamily._labels_names))%nat eqn:Es;
    simpl; [|eauto].
  destruct (existsb _ labels) eqn:Ee; [eauto|].
  exfalso. apply N. split.
  - now apply Nat.eqb_eq.
  - now apply existsb_unknown_name_false.
Qed.

Lemma accepted_dec labels f : {Inv.accepted labels f} + {~ Inv.accepted labels f}.
Proof.
  unfold Inv.accepted.
  destruct (Nat.eq_dec (StdSet.size labels) (StdSet.size f.(MetricFamily._labels_names)))
    as [E|N]; [|right; tauto].
  destruct (existsb (fun l : Label => negb (StdSet.mem l.(name) f.(MetricFamily._labels_names)))
              labels) eqn:Ee.
  - right. intros [_ A]. apply existsb_unknown_name_false in A. congruence.
  - left. split; [assumption|]. now apply existsb_unknown_name_false.
Qed.

(** No call removes or changes an entry. *)
Lemma labels_grows labels args f h :
  let '(_, (f', h')) := MetricFamily.labels construct labels args f h in
  (forall e, In e (Inv.entries f) -> In e (Inv.entries f'))
  /\ (forall p x, Heap.deref h p = Some x -> Heap.deref h' p = Some x).
Proof.
  destruct (accepted_dec labels f) as [A|N].
  - rewrite (labels_accepted _ args _ h A).
    destruct (StdMap.find labels _); [tauto|]. split.
    + intros e. apply map_insert_mono.
    + intros p x. unfold Heap.deref.
      destruct (nth_error h p) as [c|] eqn:E; [|discriminate].
      rewrite nth_error_app1 by (apply nth_error_Some; congruence).
      now rewrite E.
  - destruct (labels_rejected _ args _ h N) as [what ->]. tauto.
Qed.
End FamilyFacts.

(** C4. [labels] throws [invalid_argument] exactly when the label set has
    not the size of the schema or names a label that is not in the schema,
    and a call that throws leaves the family and its instances as they were:
    both checks come before the lookup and the insertion. *)
Theorem labels_validation {T Args : Type} (construct : Args -> T)
    (labels : StdSet.t Label) (args : Args) (f : MetricFamily.t) (h : Heap.t T) :
  let '(res, (f', h')) := MetricFamily.labels construct labels args f h in
  ((exists what, res = Throw (invalid_argument what))
   <-> (StdSet.size labels <> StdSet.size f.(MetricFamily._labels_names)
        \/ exists l, In l labels /\ ~ In l.(name) f.(MetricFamily._labels_names)))
  /\ (is_ok res = false -> f' = f /\ h' = h).
Proof.
  unfold MetricFamily.labels.
  destruct (StdSet.size labels =? StdSet.size f.(MetricFamily._labels_names))%nat eqn:Es;
    simpl.
  - apply Nat.eqb_eq in Es.
    destruct (existsb _ labels) eqn:Ee.
    + split; [|tauto]. split; [|eauto].
      intros _. right. now apply existsb_unknown_name.
    + assert (Hno : ~ (StdSet.size labels <> StdSet.size f.(MetricFamily._labels_names)
                       \/ exists l, In l labels /\ ~ In l.(name) f.(MetricFamily._labels_names))).
      { intros [N|X]; [contradiction|].
        apply existsb_unknown_name in X. congruence. }
      destruct (StdMap.find labels _).
      * split; [|simpl; discriminate].
        split; [intros [what [=]] | tauto].
      * split; [|simpl; discriminate].
        split; [intros [what [=]] | tauto].
  - apply Nat.eqb_neq in Es. split; [|tauto]. split; eauto.
Qed.

(** C3. For a label set that passes the checks: when it is already a key,
    [labels] returns the instance created before and changes nothing, whatever
    the construction arguments; when it is not, exactly one instance is
    constructed from the arguments, at a fresh address, stored under the label
    set and returned; a second call with the same label set returns the
    instance of the first. *)
Theorem labels_memoises {T Args : Type} (construct : Args -> T)
    (labels : StdSet.t Label) (args args' : Args) (f : MetricFamily.t) (h : Heap.t T) :
  Inv.accepted labels f ->
  (forall existing,
      StdMap.find labels f.(MetricFamily._metrics) = Some existing ->
      MetricFamily.labels construct labels args f h = (Ok existing, (f, h)))
  /\ (StdMap.find labels f.(MetricFamily._metrics) = None ->
      exists fresh f' h',
        MetricFamily.labels construct labels args f h = (Ok fresh, (f', h'))
        /\ h' = h ++ [Some (construct args)]
        /\ Heap.deref h fresh = None
        /\ Heap.deref h' fresh = Some (construct args)
        /\ StdMap.find labels f'.(MetricFamily._metrics) = Some fresh
        /\ (forall e, In e (Inv.entries f') <-> e = (labels, fresh) \/ In e (Inv.entries f)))
  /\ (let '(first, (f1, h1)) := MetricFamily.labels construct labels args f h in
      MetricFamily.labels construct labels args' f1 h1 = (first, (f1, h1))).
Proof.
  intros A. split; [|split].
  - intros existing Hf. rewrite (labels_accepted _ _ _ _ _ A). now rewrite Hf.
  - intros Hf. rewrite (labels_accepted _ _ _ _ _ A), Hf.
    eexists _, _, _. split; [reflexivity|]. split; [reflexivity|].
    assert (Hnew : StdMap.find labels
                     (StdMap.insert labels (List.length h) f.(MetricFamily._metrics))
                   = Some (List.length h)) by now apply map_find_insert_new.
    repeat split.
    + unfold Heap.deref.
      now rewrite (proj2 (nth_error_None h (List.length h)) (le_n _)).
    + unfold Heap.deref. rewrite nth_error_app2 by apply le_n.
      now rewrite Nat.sub_diag.
    + exact Hnew.
    + apply map_insert_In.
    + intros [->|Hin].
      * now apply map_find_In.
      * now apply map_insert_mono.
  - rewrite (labels_accepted _ _ _ _ _ A).
    destruct (StdMap.find labels f.(MetricFamily._metrics)) as [p|] eqn:Hf.
    + rewrite (labels_accepted _ _ _ _ _ A). now rewrite Hf.
    + assert (A' : Inv.accepted labels
                     (MetricFamily.with_metrics f
                        (StdMap.insert labels (List.length h) f.(MetricFamily._metrics))))
        by exact A.
      rewrite (labels_accepted _ _ _ _ _ A'). simpl.
      now rewrite (map_find_insert_new _ _ _ Hf).
Qed.

Lemma labels_memoises_witness :
  Inv.accepted Scenario.l1_0_l2_0 Scenario.family
  /\ (let '(first, (f1, h1)) :=
        MetricFamily.labels Gauge.new Scenario.l1_0_l2_0 0%float Scenario.family Heap.empty in
      MetricFamily.labels Gauge.new Scenario.l1_0_l2_0 588%float f1 h1 = (first, (f1, h1))).
Proof.
  assert (A : Inv.accepted Scenario.l1_0_l2_0 Scenario.family).
  { split; [reflexivity|]. intros l [<-|[<-|[]]]; simpl; tauto. }
  split; [exact A|].
  exact (proj2 (proj2 (labels_memoises Gauge.new Scenario.l1_0_l2_0 0%float 588%float
                         Scenario.family Heap.empty A))).
Defined.

(** The checks of [labels] make the key a relabelling of the schema when no
    two labels of the set share a name. *)
Lemma accepted_distinct_names_exact (labels : StdSet.t Label) (f : MetricFamily.t) :
  Inv.accepted labels f ->
  NoDup (List.map name labels) ->
  Inv.exactly_schema labels f.(MetricFamily._labels_names).
Proof.
  intros [Hsize Hnames] Hnd. unfold Inv.exactly_schema.
  apply NoDup_Permutation_bis; [assumption| |].
  - rewrite length_map. unfold StdSet.size in Hsize. rewrite Hsize. apply le_n.
  - intros n Hn. apply in_map_iff in Hn as (l & <- & Hl). now apply Hnames.
Qed.

(** Whatever the call, [labels] keeps every entry of the family: the map of
    a family only grows. *)
Lemma family_only_grows {T Args : Type} (construct : Args -> T)
    (labels : StdSet.t Label) (args : Args) (f : MetricFamily.t) (h : Heap.t T) :
  forall e, In e (Inv.entries f) ->
            In e (Inv.entries (fst (snd (MetricFamily.labels construct labels args f h)))).
Proof.
  intros e He. pose proof (labels_grows construct labels args f h) as G.
  destruct (MetricFamily.labels construct labels args f h) as [res [f' h']].
  now apply G.
Qed.

(** C1 (fails for the keys; the map does only grow, see [family_only_grows]).
    On the family of the test suite, whose schema is [l1], [l2], the label set
    [{l1=0, l1=1}] has the size of the schema and only known names: [labels]
    accepts it and stores it as a key, although it names [l1] twice and [l2]
    not at all. *)
Theorem labels_accepts_repeated_name :
  GaugeFamily.new "my_gauge" "used for tests" (StdSet.of_list ["l1"; "l2"])
  = Ok Scenario.family
  /\ GaugeFamily.labels Scenario.l1_twice 0%float Scenario.family Heap.empty
     = (Ok 0,
        (MetricFamily.with_metrics Scenario.family [(Scenario.l1_twice, 0)],
         [Some (Gauge.new 0)]))
  /\ List.map name Scenario.l1_twice = ["l1"; "l1"]
  /\ (Inv.exactly_schema Scenario.l1_twice
        Scenario.family.(MetricFamily._labels_names) <-> False).
Proof.
  split; [reflexivity|]. split; [reflexivity|]. split; [reflexivity|].
  split; [|contradiction].
  intros P. unfold Inv.exactly_schema in P. symmetry in P.
  assert (Hin : In "l2" (List.map name Scenario.l1_twice)).
  { eapply Permutation_in; [exact P|]. simpl. tauto. }
  simpl in Hin. destruct Hin as [E|[E|[]]]; discriminate.
Qed.

(** ** Type tag of a histogram family *)

(** C2 (fails). [HistogramFamily]'s constructor passes [MetricType::Gauge] to
    its base: the family built from a valid name and valid label names has the
    tag [Gauge], and its [# TYPE] line says [gauge]. *)
Theorem histogram_family_is_tagged_gauge :
  exists f : HistogramFamily.t,
    HistogramFamily.new "h" "d" (StdSet.of_list ["l"]) default_buckets = Ok f
    /\ get_type (IsHistogramFamily f) = MetricType.Gauge
    /\ TextSerializer.serialize EmptyString [("h", 0)]
         {| objects := [Some (IsHistogramFamily f)]; counters := Heap.empty;
            gauges := Heap.empty; histograms := Heap.empty |}
       = ("# HELP h d" ++ endl ++ "# TYPE h gauge" ++ endl)%string.
Proof.
  eexists. split; [reflexivity|]. split; reflexivity.
Qed.

(** The tag is [Gauge] for every histogram family that can be built. *)
Lemma histogram_family_type (name description : string)
    (labels_names : StdSet.t string) (buckets : StdSet.t float) (f : HistogramFamily.t) :
  HistogramFamily.new name description labels_names buckets = Ok f ->
  get_type (IsHistogramFamily f) = MetricType.Gauge.
Proof.
  unfold HistogramFamily.new, MetricFamily.new, Metric.new.
  destruct (check_name_format name); [|discriminate].
  destruct (MetricFamily.for_each_check labels_names); [|discriminate].
  now intros [= <-].
Qed.

(** The sibling [HistogramMetric] carries the tag [Histogram]. *)
Lemma histogram_metric_type (name description : string)
    (buckets : StdSet.t float) (m : HistogramMetric.t) :
  HistogramMetric.new name description buckets = Ok m ->
  get_type (IsHistogramMetric m) = MetricType.Histogram.
Proof.
  unfold HistogramMetric.new, Metric.new.
  destruct (check_name_format name); [|discriminate].
  now intros [= <-].
Qed.

(** ** The round trip of the test suite *)

(** C8. Registering the gauge [my_gauge] ("Test gauge", 42), collecting and
    serializing gives exactly the three lines HELP, TYPE and [my_gauge 42]:
    no label block is written. *)
Theorem gauge_round_trip :
  GaugeMetric.new "my_gauge" "Test gauge" 42 = Ok Scenario.gauge
  /\ Registry.register_metric 0 Scenario.objs Registry.new = Some (true, Scenario.registry)
  /\ TextSerializer.serialize EmptyString
       (Registry.collect StdMap.empty Scenario.registry) Scenario.store
     = ("# HELP my_gauge Test gauge" ++ endl
        ++ "# TYPE my_gauge gauge" ++ endl
        ++ "my_gauge 42" ++ endl)%string.
Proof.
  split; [reflexivity|]. split; [reflexivity|]. vm_compute. reflexivity.
Qed.

(** ** Comparisons of [double] *)

Lemma leb_zero_not_positive (v : float) :
  (v <=? 0)%float = true -> (0 <? v)%float = false.
Proof.
  rewrite leb_spec, ltb_spec. unfold SFleb, SFltb.
  change (Prim2SF 0) with (S754_zero false).
  destruct (Prim2SF v) as [s|s| |s m e]; simpl; try destruct s; simpl; congruence.
Qed.

(** ** Counter and Gauge *)

(** C6. [Counter::add] leaves the counter as it is for [v <= 0] and adds
    exactly [v] for [v > 0]; [Gauge::sub] leaves the gauge as it is for
    [v <= 0] and subtracts exactly [v] for [v > 0]. *)
Theorem add_sub_sign_guard (c : Counter.t) (g : Gauge.t) (v : float) :
  ((v <=? 0)%float = true ->
     Counter.add v c = c /\ Gauge.sub v g = g)
  /\ ((0 <? v)%float = true ->
      Counter.get (Counter.add v c) = (Counter.get c + v)%float
      /\ Gauge.get (Gauge.sub v g) = (Gauge.get g - v)%float).
Proof.
  unfold Counter.add, Gauge.sub. split.
  - intros Hv. now rewrite (leb_zero_not_positive v Hv).
  - intros Hv. rewrite Hv. split; reflexivity.
Qed.

Lemma add_sub_sign_guard_witness :
  (Counter.add (-1) Counter.new = Counter.new
   /\ Gauge.sub (-1) (Gauge.new 42) = Gauge.new 42)
  /\ (Counter.get (Counter.add 2 Counter.new) = (Counter.get Counter.new + 2)%float
      /\ Gauge.get (Gauge.sub 2 (Gauge.new 42)) = (Gauge.get (Gauge.new 42) - 2)%float).
Proof.
  split.
  - exact (proj1 (add_sub_sign_guard Counter.new (Gauge.new 42) (-1)) eq_refl).
  - exact (proj2 (add_sub_sign_guard Counter.new (Gauge.new 42) 2) eq_refl).
Defined.

(** ** [atomic_double] under interleaving *)

Lemma same_representation_refl (x : float) : Threads.same_representation x x = true.
Proof.
  unfold Threads.same_representation.
  destruct (Prim2SF x) as [s|s| |s m e]; try (destruct s; reflexivity); try reflexivity.
  now rewrite Bool.eqb_reflx, Pos.eqb_refl, Z.eqb_refl.
Qed.

(** A thread that runs alone performs the update of the one-thread model. *)
Lemma single_thread_add (x v : float) :
  Threads.run [0; 0; 0]%nat (Threads.start x [Threads.OpAdd v])
  = {| Threads.cell := atomic_double.add_assign v x; Threads.pool := [Threads.Done] |}.
Proof.
  unfold Threads.run, Threads.start, Threads.step. simpl.
  now rewrite same_representation_refl.
Qed.

Lemma single_thread_sub (x v : float) :
  Threads.run [0; 0; 0]%nat (Threads.start x [Threads.OpSub v])
  = {| Threads.cell := atomic_double.sub_assign v x; Threads.pool := [Threads.Done] |}.
Proof.
  unfold Threads.run, Threads.start, Threads.step. simpl.
  now rewrite same_representation_refl.
Qed.

(** Two threads that take turns one after the other lose nothing. *)
Lemma two_adds_in_sequence :
  Threads.run [0; 0; 0; 1; 1; 1]%nat (Threads.start 0 [Threads.OpAdd 1; Threads.OpAdd 1])
  = {| Threads.cell := 2; Threads.pool := [Threads.Done; Threads.Done] |}.
Proof. reflexivity. Qed.

(** C9 (fails). Two threads add 1 to a cell that holds 0.  Both load 0, so
    both fix the target 1 before entering [change]; the first stores 1; the
    second reads [current = 1] and its exchange of 1 for 1 succeeds.  Both
    calls have returned and the cell holds 1, not 2: one update is lost. *)
Theorem concurrent_add_loses_update :
  let ops := [Threads.OpAdd 1; Threads.OpAdd 1] in
  let final := Threads.run [0; 1; 0; 0; 1; 1]%nat (Threads.start 0 ops) in
  Threads.finished final = true
  /\ final.(Threads.cell) = 1%float
  /\ fold_left (fun acc o => (acc + Threads.delta o)%float) ops 0%float = 2%float.
Proof. repeat split; reflexivity. Qed.

(** ** Text serializer *)

Section StreamFacts.
Local Open Scope string_scope.

Lemma string_app_assoc (a b c : string) : (a ++ b) ++ c = a ++ b ++ c.
Proof. induction a as [|x a IH]; simpl; [reflexivity|]. now rewrite IH. Qed.

Lemma string_app_nil_r (a : string) : a ++ "" = a.
Proof. induction a as [|x a IH]; simpl; [reflexivity|]. now rewrite IH. Qed.

(** A loop whose body only appends to the stream appends the texts of its
    rounds. *)
Lemma fold_left_appends {A : Type} (f : string -> A -> string) (l : list A) :
  (forall s x, f s x = s ++ f "" x) ->
  forall s, fold_left f l s = s ++ String.concat "" (List.map (f "") l).
Proof.
  intros Hf. induction l as [|x l IH]; intros s; simpl.
  - now rewrite string_app_nil_r.
  - rewrite IH, Hf. rewrite string_app_assoc.
    destruct l as [|y l]; simpl; [now rewrite string_app_nil_r | reflexivity].
Qed.

Lemma concat_empty_cons (x : string) (l : list string) :
  String.concat "" (x :: l) = x ++ String.concat "" l.
Proof. destruct l; simpl; [now rewrite string_app_nil_r | reflexivity]. Qed.

Lemma concat_cons (sep x : string) (l : list string) :
  l <> [] -> String.concat sep (x :: l) = x ++ sep ++ String.concat sep l.
Proof. destruct l; [congruence|reflexivity]. Qed.

Lemma concat_snoc (sep x : string) (l : list string) :
  l <> [] -> String.concat sep (l ++ [x]) = String.concat sep l ++ sep ++ x.
Proof.
  induction l as [|y l IH]; [congruence|]. intros _.
  destruct l as [|z l].
  - reflexivity.
  - change ((y :: z :: l) ++ [x])%list with (y :: ((z :: l) ++ [x]))%list.
    rewrite concat_cons by (simpl; congruence).
    rewrite IH by congruence.
    rewrite (concat_cons sep y (z :: l)) by congruence.
    now rewrite !string_app_assoc.
Qed.

(** The loop over the labels of [metric_serializer]. *)
Lemma label_loop (labels : list Label) : forall (s comma : string),
  fold_left
    (fun (sc : string * string) label =>
       (fst sc ++ snd sc ++ TextSerializer.label_text label, ","))
    labels (s, comma)
  = match labels with
    | [] => (s, comma)
    | _ => (s ++ comma ++ String.concat "," (List.map TextSerializer.label_text labels), ",")
    end.
Proof.
  induction labels as [|l labels IH]; intros s comma; [reflexivity|].
  simpl fold_left. rewrite IH. destruct labels as [|l' labels].
  - reflexivity.
  - cbn [List.map]. rewrite (concat_cons "," (TextSerializer.label_text l))
      by congruence.
    now rewrite !string_app_assoc.
Qed.

Lemma metric_serializer_line (stream name : string) (value : float)
    (labels : StdSet.t Label) (additional_label : Label) :
  TextSerializer.metric_serializer stream name value labels additional_label
  = stream ++ Inv.sample_line name value labels additional_label.
Proof.
  unfold TextSerializer.metric_serializer, Inv.sample_line, Inv.label_block,
    Inv.emitted_labels.
  rewrite label_loop.
  destruct labels as [|l labels];
    destruct (TextSerializer.has_name additional_label); simpl negb; simpl orb; cbv iota.
  - simpl. now rewrite !string_app_assoc.
  - simpl. now rewrite !string_app_assoc.
  - cbn [app].
    change (l :: labels ++ [additional_label])%list
      with ((l :: labels) ++ [additional_label])%list.
    rewrite map_app. cbn [List.map].
    rewrite concat_snoc by congruence.
    cbn [append]. now rewrite !string_app_assoc.
  - rewrite app_nil_r. cbn [append]. now rewrite !string_app_assoc.
Qed.
End StreamFacts.

Section SerializeFacts.
Local Open Scope string_scope.

Lemma family_serialize_appends {T : Type}
    (serialize_instance : string -> MetricSerializer -> string -> StdSet.t Label -> T -> string)
    (f : MetricFamily.t) (h : Heap.t T) :
  (forall s n ls x,
      serialize_instance s TextSerializer.metric_serializer n ls x
      = s ++ serialize_instance "" TextSerializer.metric_serializer n ls x) ->
  forall stream,
    MetricFamily.serialize serialize_instance stream TextSerializer.metric_serializer f h
    = stream
      ++ MetricFamily.serialize serialize_instance "" TextSerializer.metric_serializer f h.
Proof.
  intros Hi stream. unfold MetricFamily.serialize.
  rewrite fold_left_appends; [symmetry; rewrite fold_left_appends; [reflexivity|]|];
    intros s p; destruct (Heap.deref h (snd p));
    try (now rewrite string_app_nil_r); try reflexivity; apply Hi.
Qed.

Lemma counter_serialize_appends (s n : string) (ls : StdSet.t Label) (c : Counter.t) :
  Counter.serialize s TextSerializer.metric_serializer n ls c
  = s ++ Counter.serialize "" TextSerializer.metric_serializer n ls c.
Proof.
  unfold Counter.serialize. now rewrite metric_serializer_line, (metric_serializer_line "").
Qed.

Lemma gauge_serialize_appends (s n : string) (ls : StdSet.t Label) (g : Gauge.t) :
  Gauge.serialize s TextSerializer.metric_serializer n ls g
  = s ++ Gauge.serialize "" TextSerializer.metric_serializer n ls g.
Proof.
  unfold Gauge.serialize. now rewrite metric_serializer_line, (metric_serializer_line "").
Qed.

Lemma histogram_serialize_appends (s n : string) (ls : StdSet.t Label) (h : Histogram.t) :
  Histogram.serialize s TextSerializer.metric_serializer n ls h
  = s ++ Histogram.serialize "" TextSerializer.metric_serializer n ls h.
Proof.
  unfold Histogram.serialize.
  rewrite fold_left_appends; [symmetry; rewrite fold_left_appends; [reflexivity|]|];
    intros s' p; now rewrite metric_serializer_line, (metric_serializer_line "").
Qed.

Lemma serialize_metric_appends (stream : string) (st : Store) (o : MetricObject) :
  serialize_metric stream TextSerializer.metric_serializer st o
  = stream ++ serialize_metric "" TextSerializer.metric_serializer st o.
Proof.
  destruct o; simpl.
  - apply counter_serialize_appends.
  - apply family_serialize_appends, counter_serialize_appends.
  - apply gauge_serialize_appends.
  - apply family_serialize_appends, gauge_serialize_appends.
  - apply histogram_serialize_appends.
  - apply family_serialize_appends, histogram_serialize_appends.
Qed.

(** The serializer writes the texts of the live metrics one after the other,
    in the iteration order of the snapshot. *)
Lemma serialize_texts (stream : string) (snap : Snapshot) (st : Store) :
  TextSerializer.serialize stream snap st
  = stream ++ String.concat "" (List.map (Inv.metric_text st) (Inv.alive snap st)).
Proof.
  unfold TextSerializer.serialize, Inv.alive. revert stream.
  induction snap as [|[k p] snap IH]; intros stream.
  - cbn. now rewrite string_app_nil_r.
  - cbn [fold_left flat_map snd]. rewrite IH.
    destruct (Heap.deref st.(objects) p) as [o|]; [|reflexivity].
    rewrite serialize_metric_appends.
    cbn [app List.map]. rewrite concat_empty_cons.
    unfold Inv.metric_text at 2. now rewrite !string_app_assoc.
Qed.


End SerializeFacts.

(** *** Snapshots taken from a registry *)


Lemma collect_ascending (snap : Snapshot) (r : Registry.t) :
  ascending (StdMap.keys snap) -> ascending (StdMap.keys (Registry.collect snap r)).
Proof.
  unfold Registry.collect. generalize r.(Registry._register_metrics) as l.
  intros l. revert snap. induction l as [|[k p] l IH]; intros snap A; simpl.
  - assumption.
  - apply IH. now apply map_insert_ascending.
Qed.


Lemma registry_new_named (st : Store) : Inv.registry_named Registry.new st.
Proof. intros k p o []. Qed.

Lemma register_metric_named (st : Store) (r r' : Registry.t) (metric : ptr) (b : bool) :
  Inv.registry_named r st ->
  Registry.register_metric metric st.(objects) r = Some (b, r') ->
  Inv.registry_named r' st.
Proof.
  unfold Registry.register_metric. intros Hr.
  destruct (Heap.deref st.(objects) metric) as [o|] eqn:Hd; [|discriminate].
  destruct (StdMap.find _ _); intros [= <- <-]; [assumption|].
  intros k p o' Hin. simpl in Hin. apply map_insert_In in Hin as [[= -> ->]|Hin].
  - congruence.
  - now apply Hr.
Qed.

Lemma unregister_metric_named (st : Store) (r : Registry.t) (n : string) :
  Inv.registry_named r st ->
  Inv.registry_named (snd (Registry.unregister_metric n r)) st.
Proof.
  intros Hr k p o Hin. simpl in Hin. apply map_erase_In in Hin. now apply Hr.
Qed.

(** *** The serializer against the exposition format *)







Section SetMembers.
Context {K : Type} `{LessLaws K}.




End SetMembers.


Lemma two_registry_ok : Inv.registry_ok Scenario.two_registry.
Proof.
  unfold Inv.registry_ok. change (StdMap.keys _) with ["active"; "requests_total"].
  repeat constructor.
Qed.



(** The counter was registered first; the gauge, whose name is smaller, is
    written first. *)
Lemma two_metrics_output :
  TextSerializer.serialize EmptyString
    (Registry.collect StdMap.empty Scenario.two_registry) Scenario.two_store
  = ("# HELP active Active sessions" ++ endl
     ++ "# TYPE active gauge" ++ endl
     ++ "active 3" ++ endl
     ++ "# HELP requests_total Requests" ++ endl
     ++ "# TYPE requests_total counter" ++ endl
     ++ "requests_total 7" ++ endl)%string.
Proof. vm_compute. reflexivity. Qed.

(** ** Arithmetic of [double]

    The comparisons and the addition of [float] are specified by the
    operations of [SpecFloat] on sign, mantissa and exponent ([ltb_spec],
    [leb_spec], [add_spec]); the facts below are proved on that
    specification. *)

Section FloatFacts.
Local Open Scope Z_scope.

(** *** Order *)

Ltac by_cases_on_comparisons ex ey ez mx my mz :=
  destruct (Z.compare_spec ex ey); destruct (Z.compare_spec ey ez);
  destruct (Z.compare_spec ex ez);
  try lia; try discriminate; try reflexivity; subst;
  fold (Pos.compare mx my) (Pos.compare my mz) (Pos.compare mx mz);
  destruct (Pos.compare_spec mx my); destruct (Pos.compare_spec my mz);
  destruct (Pos.compare_spec mx mz);
  simpl; try lia; try discriminate; try reflexivity.

(** [x <= y < z] gives [x < z]; none of the three is then a NaN. *)
Lemma SFcompare_le_lt_trans (x y z : spec_float) :
  SFleb x y = true -> SFltb y z = true -> SFltb x z = true.
Proof.
  unfold SFleb, SFltb.
  destruct x as [sx|sx| |sx mx ex], y as [sy|sy| |sy my ey],
           z as [sz|sz| |sz mz ez];
    simpl; try discriminate; try reflexivity;
    repeat match goal with s : bool |- _ => destruct s end; simpl;
    try discriminate; try reflexivity.
  all: by_cases_on_comparisons ex ey ez mx my mz.
Qed.

(** *** Number of binary digits *)

Lemma pow2_pos (n : Z) : 0 <= n -> 0 < 2 ^ n.
Proof. intros. apply Z.pow_pos_nonneg; lia. Qed.

Lemma pow2_succ (n : Z) : 0 < n -> 2 ^ n = 2 * 2 ^ (n - 1).
Proof. intros. rewrite <- Z.pow_succ_r by lia. f_equal. lia. Qed.

Lemma pow2_above_positive (x d : Z) : 0 < x -> x < 2 ^ d -> 0 < d.
Proof.
  intros Hx Hd. destruct (Z.ltb_spec 0 d) as [|Hle]; [assumption|exfalso].
  destruct (Z.eq_dec d 0) as [->|N]; [simpl in Hd; lia|].
  rewrite Z.pow_neg_r in Hd by lia. lia.
Qed.

Lemma digits_bounds (p : positive) :
  2 ^ (Zpos (digits2_pos p) - 1) <= Zpos p < 2 ^ Zpos (digits2_pos p).
Proof.
  induction p as [p IH|p IH|]; simpl digits2_pos; [| |simpl; lia].
  all: rewrite Pos2Z.inj_succ, Z.pow_succ_r by lia.
  all: replace (Z.succ (Zpos (digits2_pos p)) - 1) with (Zpos (digits2_pos p)) by lia.
  all: rewrite (pow2_succ (Zpos (digits2_pos p))) in * by lia; lia.
Qed.

Lemma digits_unique (p : positive) (d : Z) :
  2 ^ (d - 1) <= Zpos p < 2 ^ d -> Zpos (digits2_pos p) = d.
Proof.
  intros [Hlo Hhi]. pose proof (digits_bounds p) as [Blo Bhi].
  set (d0 := Zpos (digits2_pos p)) in *.
  assert (0 < d) by (apply pow2_above_positive with (Zpos p); lia).
  destruct (Z.lt_trichotomy d0 d) as [L|[E|G]]; [|assumption|]; exfalso.
  - assert (2 ^ d0 <= 2 ^ (d - 1)) by (apply Z.pow_le_mono_r; lia). lia.
  - assert (2 ^ d <= 2 ^ (d0 - 1)) by (apply Z.pow_le_mono_r; lia). lia.
Qed.

Lemma digits_shift (q : positive) (n d : Z) :
  0 <= n -> 2 ^ (d - 1) <= Zpos q < 2 ^ d ->
  Zpos (digits2_pos (Z.to_pos (Zpos q * 2 ^ n))) = d + n.
Proof.
  intros Hn [Hlo Hhi]. apply digits_unique.
  pose proof (pow2_pos n Hn).
  assert (0 < d) by (apply pow2_above_positive with (Zpos q); lia).
  rewrite Z2Pos.id by lia.
  replace (d + n - 1) with ((d - 1) + n) by lia.
  rewrite !Z.pow_add_r by lia. nia.
Qed.

Lemma digits_mono (p q : positive) :
  Zpos p <= Zpos q -> Zpos (digits2_pos p) <= Zpos (digits2_pos q).
Proof.
  intros Hle. pose proof (digits_bounds p) as [Plo _].
  pose proof (digits_bounds q) as [_ Qhi].
  destruct (Z.le_gt_cases (Zpos (digits2_pos p)) (Zpos (digits2_pos q))) as [|G];
    [assumption|exfalso].
  assert (2 ^ Zpos (digits2_pos q) <= 2 ^ (Zpos (digits2_pos p) - 1))
    by (apply Z.pow_le_mono_r; lia).
  lia.
Qed.

Lemma digits_le_53 (p : positive) :
  Zpos p < 2 ^ 53 -> 1 <= Zpos (digits2_pos p) <= 53.
Proof.
  intros Hp. pose proof (digits_bounds p) as [Plo _]. split; [lia|].
  destruct (Z.le_gt_cases (Zpos (digits2_pos p)) 53) as [|G]; [assumption|exfalso].
  assert (2 ^ 53 <= 2 ^ (Zpos (digits2_pos p) - 1)) by (apply Z.pow_le_mono_r; lia).
  lia.
Qed.

(** *** Shifts of the mantissa *)

Lemma iter_xO_value (m : positive) (n : positive) :
  Zpos (Pos.iter xO m n) = Zpos m * 2 ^ Zpos n.
Proof.
  revert m. induction n as [|n IH] using Pos.peano_ind; intros m.
  - simpl. lia.
  - rewrite Pos.iter_succ, Pos2Z.inj_succ, Z.pow_succ_r by lia.
    rewrite Pos2Z.inj_xO, IH. lia.
Qed.

(** Aligning to a smaller exponent multiplies the mantissa. *)
Lemma shl_align_value (m : positive) (e ez : Z) :
  ez <= e ->
  shl_align m e ez
  = (Z.to_pos (Zpos m * 2 ^ (e - ez)), if Z.eqb e ez then e else ez).
Proof.
  intros Hle. unfold shl_align.
  destruct (ez - e) as [|d|d] eqn:E; [| lia |].
  - replace (e - ez) with 0 by lia.
    replace (Z.eqb e ez) with true by (symmetry; apply Z.eqb_eq; lia).
    simpl. f_equal. now rewrite Pos.mul_1_r.
  - replace (e - ez) with (Zpos d) by lia.
    replace (Z.eqb e ez) with false by (symmetry; apply Z.eqb_neq; lia).
    f_equal. now rewrite <- iter_xO_value.
Qed.

Lemma iter_pos_nat {A} (f : A -> A) (p : positive) : forall x,
  SpecFloat.iter_pos f p x = Nat.iter (Pos.to_nat p) f x.
Proof.
  induction p as [p IH|p IH|]; intros x; simpl SpecFloat.iter_pos;
    [| |reflexivity].
  - rewrite !IH, Pos2Nat.inj_xI, Nat.iter_succ_r.
    replace (2 * Pos.to_nat p)%nat with (Pos.to_nat p + Pos.to_nat p)%nat by lia.
    now rewrite Nat.iter_add.
  - rewrite !IH, Pos2Nat.inj_xO.
    replace (2 * Pos.to_nat p)%nat with (Pos.to_nat p + Pos.to_nat p)%nat by lia.
    now rewrite Nat.iter_add.
Qed.

Lemma shr_nat_exact (n : nat) : forall q : positive,
  Nat.iter n shr_1 (Binary64.shifted (Zpos q * 2 ^ Z.of_nat n)) = Binary64.shifted (Zpos q).
Proof.
  induction n as [|n IH]; intros q.
  - simpl. unfold Binary64.shifted. f_equal. lia.
  - assert (P : 0 < Zpos q * 2 ^ Z.of_nat n)
      by (apply Z.mul_pos_pos; [lia | apply pow2_pos; lia]).
    rewrite Nat.iter_succ_r.
    replace (Zpos q * 2 ^ Z.of_nat (S n))
      with (Zpos (xO (Z.to_pos (Zpos q * 2 ^ Z.of_nat n)))).
    + change (shr_1 (Binary64.shifted (Zpos (xO ?x)))) with (Binary64.shifted (Zpos x)).
      rewrite Z2Pos.id by exact P. apply IH.
    + rewrite Pos2Z.inj_xO, Z2Pos.id by exact P.
      rewrite Nat2Z.inj_succ, Z.pow_succ_r by lia. lia.
Qed.

(** Shifting out zero bits loses nothing. *)
Lemma shr_exact (q : positive) (e n : Z) :
  0 <= n -> shr (Binary64.shifted (Zpos q * 2 ^ n)) e n = (Binary64.shifted (Zpos q), e + n).
Proof.
  intros Hn. unfold shr. destruct n as [|p|p]; [| |lia].
  - f_equal; [unfold Binary64.shifted; f_equal|]; lia.
  - rewrite iter_pos_nat. f_equal.
    rewrite <- (positive_nat_Z p). apply shr_nat_exact.
Qed.

(** *** Exact addition of 1 below [2^53] *)

(** Rounding a 53-bit mantissa followed by zero bits is exact. *)
Lemma binary_round_exact (q : positive) (e n : Z) :
  0 <= n -> 2 ^ 52 <= Zpos q < 2 ^ 53 ->
  -1074 <= e + n <= 971 ->
  binary_round prec emax false (Z.to_pos (Zpos q * 2 ^ n)) e
  = S754_finite false q (e + n).
Proof.
  intros Hn Hq He.
  pose proof (digits_shift q n 53 Hn Hq) as Hd.
  unfold binary_round. rewrite Hd.
  assert (Hf : fexp prec emax (53 + n + e) = e + n)
    by (unfold fexp, SpecFloat.emin, prec, emax; lia).
  rewrite Hf.
  unfold shl_align. destruct (e + n - e) eqn:E; try lia.
  all: unfold binary_round_aux, shr_fexp; cbn [Zdigits2 shr_record_of_loc];
       fold (Binary64.shifted (Zpos (Z.to_pos (Zpos q * 2 ^ n)))); rewrite Hd, Hf.
  all: rewrite Z2Pos.id by (pose proof (pow2_pos n Hn); lia).
  all: replace (e + n - e) with n by lia.
  all: rewrite shr_exact by lia; unfold Binary64.shifted;
       cbn [shr_m loc_of_shr_record round_nearest_even Zdigits2 shr_record_of_loc].
  all: replace (Zpos (digits2_pos q)) with 53
         by (symmetry; apply digits_unique; exact Hq).
  all: replace (fexp prec emax (53 + (e + n)) - (e + n)) with 0
         by (unfold fexp, SpecFloat.emin, prec, emax; lia).
  all: cbn [shr shr_m].
  all: replace (e + n <=? emax - prec) with true
         by (symmetry; apply Z.leb_le; unfold prec, emax; lia).
  all: reflexivity.
Qed.

Lemma of_Z_canonical (k d : Z) :
  0 < k -> 2 ^ (d - 1) <= k < 2 ^ d ->
  Binary64.of_Z k = S754_finite false (Z.to_pos (k * 2 ^ (53 - d))) (d - 53).
Proof.
  intros Hk Hd. destruct k as [|p|p]; try lia.
  unfold Binary64.of_Z. now rewrite (digits_unique p d Hd).
Qed.

(** The binary64 sum of the integer [k] and 1 is the integer [k + 1]. *)
Lemma SFadd_one (k : Z) :
  0 < k -> k + 1 < 2 ^ 53 ->
  SFadd prec emax (Binary64.of_Z k) (Binary64.of_Z 1) = Binary64.of_Z (k + 1).
Proof.
  intros Hk Hk1.
  destruct k as [|p|p]; try lia.
  pose proof (digits_bounds p) as Bk. pose proof (digits_le_53 p) as Hd.
  set (d := Zpos (digits2_pos p)) in *. specialize (Hd ltac:(lia)).
  destruct (Zpos p + 1) as [|p1|p1] eqn:Ep1; try lia.
  pose proof (digits_bounds p1) as Bk1. pose proof (digits_le_53 p1 Hk1) as Hd1.
  set (d1 := Zpos (digits2_pos p1)) in *.
  rewrite (of_Z_canonical (Zpos p) d) by (try lia; exact Bk).
  rewrite (of_Z_canonical (Zpos p1) d1) by (try lia; exact Bk1).
  change (Binary64.of_Z 1) with (S754_finite false 4503599627370496 (-52)).
  assert (P : 0 < 2 ^ (53 - d)) by (apply pow2_pos; lia).
  assert (P1 : 0 < 2 ^ (53 - d1)) by (apply pow2_pos; lia).
  assert (Hm : Zpos (Z.to_pos (Zpos p * 2 ^ (53 - d))) = Zpos p * 2 ^ (53 - d))
    by (apply Z2Pos.id; lia).
  unfold SFadd.
  replace (Z.min (d - 53) (-52)) with (-52) by lia.
  rewrite !shl_align_value by lia. cbn [fst cond_Zopp].
  rewrite Hm.
  assert (Hsum :
    Zpos (Z.to_pos (Zpos p * 2 ^ (53 - d) * 2 ^ (d - 53 - -52)))
    + Zpos (Z.to_pos (4503599627370496 * 2 ^ (-52 - -52)))
    = Zpos (Z.to_pos (Zpos (Z.to_pos (Zpos p1 * 2 ^ (53 - d1))) * 2 ^ (d1 - 1)))).
  { pose proof (pow2_pos (d - 53 - -52)). pose proof (pow2_pos (d1 - 1)).
    rewrite !Z2Pos.id by nia.
    replace (-52 - -52) with 0 by lia.
    rewrite <- Z.mul_assoc, <- !Z.pow_add_r by lia.
    rewrite <- Z.mul_assoc, <- !Z.pow_add_r by lia.
    replace (53 - d + (d - 53 - -52)) with 52 by lia.
    replace (53 - d1 + (d1 - 1)) with 52 by lia.
    rewrite <- Ep1. change (2 ^ 0) with 1.
    change (2 ^ 52) with 4503599627370496. lia. }
  rewrite Hsum. cbn [binary_normalize].
  rewrite binary_round_exact.
  - f_equal. lia.
  - lia.
  - assert (E52 : 2 ^ 52 = 2 ^ (d1 - 1) * 2 ^ (53 - d1))
      by (rewrite <- Z.pow_add_r by lia; f_equal; lia).
    assert (E53 : 2 ^ 53 = 2 ^ d1 * 2 ^ (53 - d1))
      by (rewrite <- Z.pow_add_r by lia; f_equal; lia).
    rewrite Z2Pos.id by nia. rewrite E52, E53. split; nia.
  - lia.
Qed.

(** *** Order of the integers below [2^53] *)

Lemma of_Z_le (k k' : Z) :
  0 <= k <= k' -> k' < 2 ^ 53 ->
  SFleb (Binary64.of_Z k) (Binary64.of_Z k') = true.
Proof.
  intros [H0 Hle] Hk'.
  destruct k as [|p|p]; [|clear H0|lia]; destruct k' as [|q|q];
    try lia; try reflexivity.
  pose proof (digits_mono p q Hle) as Hd.
  pose proof (digits_le_53 q Hk') as Hq53.
  assert (Hp53 : 1 <= Zpos (digits2_pos p) <= 53) by (apply digits_le_53; lia).
  unfold Binary64.of_Z, SFleb, SFcompare.
  destruct (Z.compare_spec (Zpos (digits2_pos p) - 53) (Zpos (digits2_pos q) - 53))
    as [E|L|G]; [|reflexivity|lia].
  assert (E' : Zpos (digits2_pos q) = Zpos (digits2_pos p)) by lia.
  rewrite E'. set (d := Zpos (digits2_pos p)) in *.
  change (Pos.compare_cont Eq ?a ?b) with (Pos.compare a b).
  assert (P : 0 < 2 ^ (53 - d)) by (apply pow2_pos; lia).
  destruct (Pos.compare_spec (Z.to_pos (Zpos p * 2 ^ (53 - d)))
              (Z.to_pos (Zpos q * 2 ^ (53 - d)))) as [_|_|G]; try reflexivity.
  exfalso. apply Pos2Z.pos_lt_pos in G. rewrite !Z2Pos.id in G by nia. nia.
Qed.

Lemma of_Z_le_two53 (k : Z) :
  0 <= k < 2 ^ 53 -> SFleb (Binary64.of_Z k) (Prim2SF Binary64.two53) = true.
Proof.
  intros [H0 Hk]. destruct k as [|p|p]; [reflexivity| |lia].
  pose proof (digits_le_53 p Hk) as Hd.
  change (Prim2SF Binary64.two53) with (S754_finite false 4503599627370496 1).
  unfold Binary64.of_Z, SFleb, SFcompare.
  destruct (Z.compare_spec (Zpos (digits2_pos p) - 53) 1); try reflexivity; lia.
Qed.
End FloatFacts.

(** *** Counts of a bucket *)

Section CountFacts.
Local Open Scope Z_scope.

Lemma count_after_S (n : nat) :
  Inv.count_after (S n) = (Inv.count_after n + 1)%float.
Proof. reflexivity. Qed.

(** Below [2^53] increments the count is the exact integer. *)
Lemma count_after_int (n : nat) :
  Z.of_nat n < 2 ^ 53 -> Prim2SF (Inv.count_after n) = Binary64.of_Z (Z.of_nat n).
Proof.
  induction n as [|n IH]; intros Hn; [reflexivity|].
  rewrite count_after_S, add_spec, IH by lia.
  change (Prim2SF 1) with (Binary64.of_Z 1). unfold SF64add.
  destruct n as [|n]; [reflexivity|].
  rewrite SFadd_one by lia. f_equal. lia.
Qed.

(** From [2^53] increments on the count stays at [2^53]: the sum
    [2^53 + 1] rounds back to [2^53]. *)
Lemma count_after_top (n : nat) :
  2 ^ 53 <= Z.of_nat n -> Inv.count_after n = Binary64.two53.
Proof.
  induction n as [|n IH]; intros Hn; [simpl in Hn; lia|].
  rewrite count_after_S.
  destruct (Z.le_gt_cases (2 ^ 53) (Z.of_nat n)) as [Hge|Hlt].
  - now rewrite IH.
  - assert (E : Z.of_nat n = 9007199254740991) by lia.
    assert (X : Inv.count_after n = 9007199254740991%float).
    { apply Prim2SF_inj. rewrite count_after_int by lia. rewrite E.
      vm_compute. reflexivity. }
    now rewrite X.
Qed.

(** The count of a bucket never goes down when it is incremented more. *)
Lemma count_after_mono (n k : nat) :
  (Inv.count_after n <=? Inv.count_after (n + k))%float = true.
Proof.
  rewrite leb_spec.
  destruct (Z.le_gt_cases (2 ^ 53) (Z.of_nat (n + k))) as [Hm|Hm].
  - rewrite (count_after_top (n + k)) by assumption.
    destruct (Z.le_gt_cases (2 ^ 53) (Z.of_nat n)) as [Hn|Hn].
    + now rewrite (count_after_top n).
    + rewrite count_after_int by lia. apply of_Z_le_two53. lia.
  - rewrite !count_after_int by lia. apply of_Z_le; lia.
Qed.
End CountFacts.

(** ** Histogram *)

Lemma float_ltb_trans (x y z : float) :
  (x <? y)%float = true -> (y <? z)%float = true -> (x <? z)%float = true.
Proof.
  rewrite !ltb_spec. intros Hxy Hyz.
  apply SFcompare_le_lt_trans with (Prim2SF y); [|assumption].
  unfold SFltb in Hxy. unfold SFleb.
  destruct (SFcompare (Prim2SF x) (Prim2SF y)) as [[| |]|]; congruence.
Qed.

Lemma float_leb_ltb_trans (x y z : float) :
  (x <=? y)%float = true -> (y <? z)%float = true -> (x <=? z)%float = true.
Proof.
  rewrite !leb_spec, ltb_spec. intros Hxy Hyz.
  pose proof (SFcompare_le_lt_trans _ _ _ Hxy Hyz) as L.
  unfold SFltb in L. unfold SFleb.
  destruct (SFcompare (Prim2SF x) (Prim2SF z)) as [[| |]|]; congruence.
Qed.

#[export] Instance double_LessTrans : LessTrans float.
Proof. intros a b c. apply float_ltb_trans. Qed.

Lemma StronglySorted_map_impl {A B : Type} (R : A -> A -> Prop) (R' : B -> B -> Prop)
    (g : A -> B) (l : list A) :
  (forall a b, R a b -> R' (g a) (g b)) ->
  StronglySorted R l -> StronglySorted R' (List.map g l).
Proof.
  intros Hg. induction 1 as [|a l Hs IH Hf]; simpl; constructor; [assumption|].
  rewrite Forall_forall in *. intros b Hb.
  apply in_map_iff in Hb as (b0 & <- & Hb0). now apply Hg, Hf.
Qed.

Section HistogramFacts.
Implicit Types (m : StdMap.t float atomic_double.t) (h : Histogram.t).

(** The map built by the constructor: ascending bounds, the bound
    [+infinity] among them, every count zero. *)
Lemma new_buckets (buckets : StdSet.t float) :
  ascending (StdMap.keys (Histogram.new buckets).(Histogram._buckets))
  /\ Forall (fun p => snd p = 0%float) (Histogram.new buckets).(Histogram._buckets)
  /\ In infinity (StdMap.keys (Histogram.new buckets).(Histogram._buckets)).
Proof.
  unfold Histogram.new. simpl.
  assert (G : forall (l : list float) m,
             ascending (StdMap.keys m) /\ Forall (fun p => snd p = 0%float) m
             /\ In infinity (StdMap.keys m) ->
             let m' := fold_left (fun m bucket => StdMap.insert bucket 0%float m) l m in
             ascending (StdMap.keys m') /\ Forall (fun p => snd p = 0%float) m'
             /\ In infinity (StdMap.keys m')).
  { induction l as [|b l IH]; intros m (A & Z & I); simpl; [tauto|].
    apply IH. split; [|split].
    - now apply map_insert_ascending.
    - rewrite Forall_forall in *. intros x Hx.
      apply map_insert_In in Hx as [->|Hx]; [reflexivity|now apply Z].
    - apply in_map_iff in I as ([k c] & Ek & Hin). simpl in Ek. subst k.
      apply in_map_iff. exists (infinity, c). split; [reflexivity|].
      now apply map_insert_mono. }
  apply G. split; [|split].
  - repeat constructor.
  - repeat constructor.
  - simpl. tauto.
Qed.

Lemma zero_counts_cumulative m :
  ascending (StdMap.keys m) -> Forall (fun p => snd p = 0%float) m ->
  StronglySorted Inv.cumulative m.
Proof.
  induction m as [|p m IH]; intros A Z; constructor.
  - apply IH; [now apply ascending_inv in A | now inversion Z].
  - apply ascending_inv in A as [_ F]. inversion Z as [|? ? Zp Zm]; subst.
    rewrite Forall_forall in *. intros q Hq. split.
    + apply F. now apply in_map.
    + exists O, O. split; [exact Zp | now apply Zm].
Qed.

Lemma observe_bucket_fst (v : float) (p : float * atomic_double.t) :
  fst (Inv.observe_bucket v p) = fst p.
Proof. unfold Inv.observe_bucket. now destruct (v <=? fst p)%float. Qed.

Lemma observe_bucket_cumulative (v : float) (p q : float * atomic_double.t) :
  Inv.cumulative p q -> Inv.cumulative (Inv.observe_bucket v p) (Inv.observe_bucket v q).
Proof.
  intros (Hlt & n & k & Hp & Hq). split.
  - now rewrite !observe_bucket_fst.
  - unfold Inv.observe_bucket. destruct (v <=? fst p)%float eqn:Ep.
    + rewrite (float_leb_ltb_trans _ _ _ Ep Hlt). simpl.
      exists (S n), k. rewrite Hp, Hq. split; reflexivity.
    + destruct (v <=? fst q)%float; simpl.
      * exists n, (S k). rewrite Hq. split; [assumption|].
        now rewrite Nat.add_succ_r.
      * now exists n, k.
Qed.

Lemma observed_cumulative (buckets : StdSet.t float) (observations : list float) :
  StronglySorted Inv.cumulative (Inv.observed buckets observations).(Histogram._buckets).
Proof.
  unfold Inv.observed.
  assert (G : forall l h,
             StronglySorted Inv.cumulative h.(Histogram._buckets) ->
             StronglySorted Inv.cumulative
               (fold_left (fun h x => Histogram.observe x h) l h).(Histogram._buckets)).
  { induction l as [|x l IH]; intros h Hh; simpl; [assumption|].
    apply IH. simpl.
    apply (StronglySorted_map_impl Inv.cumulative Inv.cumulative (Inv.observe_bucket x));
      [apply observe_bucket_cumulative | assumption]. }
  apply G. pose proof (new_buckets buckets) as (A & Z & _).
  now apply zero_counts_cumulative.
Qed.

Lemma observe_keys (v : float) h :
  StdMap.keys (Histogram.observe v h).(Histogram._buckets)
  = StdMap.keys h.(Histogram._buckets).
Proof.
  unfold StdMap.keys. simpl. rewrite map_map. apply map_ext.
  intros p. apply (observe_bucket_fst v p).
Qed.

Lemma observed_keys (buckets : StdSet.t float) (observations : list float) :
  StdMap.keys (Inv.observed buckets observations).(Histogram._buckets)
  = StdMap.keys (Histogram.new buckets).(Histogram._buckets).
Proof.
  unfold Inv.observed. generalize (Histogram.new buckets) as h.
  induction observations as [|x l IH]; intros h; simpl; [reflexivity|].
  now rewrite IH, observe_keys.
Qed.
End HistogramFacts.

(** C5. [observe(v)] adds exactly [v] to the sum and adds 1 to the count of
    exactly the buckets whose bound is [>= v], leaving the bounds as they
    are; the bound [+infinity] is always among them; and after any sequence
    of observations on a new histogram the bounds are ascending and the
    counts, in that order, never decrease. *)
Theorem histogram_observe (buckets : StdSet.t float) (observations : list float)
    (v : float) :
  let h := Inv.observed buckets observations in
  let h' := Histogram.observe v h in
  h'.(Histogram._sum) = (h.(Histogram._sum) + v)%float
  /\ (forall i bound count,
        nth_error h.(Histogram._buckets) i = Some (bound, count) ->
        nth_error h'.(Histogram._buckets) i
        = Some (bound, if (v <=? bound)%float then (count + 1)%float else count))
  /\ List.length h'.(Histogram._buckets) = List.length h.(Histogram._buckets)
  /\ In infinity (StdMap.keys h.(Histogram._buckets))
  /\ ascending (StdMap.keys h.(Histogram._buckets))
  /\ Inv.nondecreasing (List.map snd h.(Histogram._buckets)).
Proof.
  intros h h'. split; [reflexivity|]. split; [|split; [|split; [|split]]].
  - intros i bound count Hi. unfold h'. simpl.
    rewrite nth_error_map, Hi. simpl.
    now destruct (v <=? bound)%float.
  - unfold h'. simpl. apply length_map.
  - unfold h. rewrite observed_keys. apply new_buckets.
  - unfold h. rewrite observed_keys. apply new_buckets.
  - unfold h. eapply StronglySorted_map_impl; [|apply observed_cumulative].
    intros p q (_ & n & k & -> & ->). apply count_after_mono.
Qed.

(** Observing 0.003 on the default ladder increments every bucket, the one
    of bound 0.005 included. *)
Lemma observe_default_ladder :
  List.map snd (Histogram.observe 0.003 (Histogram.new default_buckets)).(Histogram._buckets)
  = List.repeat 1%float 12
  /\ (Histogram.observe 0.003 (Histogram.new default_buckets)).(Histogram._sum)
     = 0.003%float.
Proof. split; reflexivity. Qed.

(** ** Further scenarios of the serializer *)

(** A metric whose object has been destroyed is skipped. *)
Lemma expired_metric_skipped :
  TextSerializer.serialize EmptyString
    (Registry.collect StdMap.empty Scenario.two_registry)
    {| objects := Heap.destroy 1 Scenario.two_objs; counters := Heap.empty;
       gauges := Heap.empty; histograms := Heap.empty |}
  = ("# HELP requests_total Requests" ++ endl
     ++ "# TYPE requests_total counter" ++ endl
     ++ "requests_total 7" ++ endl)%string.
Proof. vm_compute. reflexivity. Qed.

(** A double quote in a label value is written with a backslash before it. *)
Lemma escaped_label_value :
  TextSerializer.label_text
    {| name := "path"; value := ("a" ++ dquote ++ "b")%string |}
  = ("path=" ++ dquote ++ "a" ++ backslash ++ dquote ++ "b" ++ dquote)%string.
Proof. reflexivity. Qed.

(** The samples of a histogram carry the bound as the label [le], after the
    labels of the instance. *)
Lemma histogram_sample_lines :
  HistogramMetric.serialize EmptyString TextSerializer.metric_serializer
    {| HistogramMetric.base :=
         {| Metric._name := "latency"; Metric._description := "Latency";
            Metric._type := MetricType.Histogram |};
       HistogramMetric.histogram :=
         Histogram.observe 0.3 (Histogram.new (StdSet.of_list [0.5; 0.1]%float)) |}
  = ("latency{le=" ++ dquote ++ "0.100000" ++ dquote ++ "} 0" ++ endl
     ++ "latency{le=" ++ dquote ++ "0.500000" ++ dquote ++ "} 1" ++ endl
     ++ "latency{le=" ++ dquote ++ "inf" ++ dquote ++ "} 1" ++ endl)%string.
Proof. vm_compute. reflexivity. Qed.

(* ================================================================== *)
(** * Part III: further properties of the header *)
(* ================================================================== *)

(** ** Type strings and name formats *)

(** The four type strings are pairwise different: the TYPE line tells the
    kind of a metric. *)
Lemma metric_type_to_string_injective (a b : MetricType.t) :
  metric_type_to_string a = metric_type_to_string b <-> a = b.
Proof.
  split; [|now intros ->].
  destruct a, b; simpl; intros E; try reflexivity; discriminate.
Qed.

Lemma all_chars_In (p : ascii -> bool) (s : string) :
  all_chars p s = true <-> forall c, In c (list_ascii_of_string s) -> p c = true.
Proof.
  induction s as [|x s IH]; simpl.
  - split; [intros _ c [] | reflexivity].
  - rewrite andb_true_iff, IH. split.
    + intros [Hx Hs] c [<-|Hc]; auto.
    + intros Hall. split; [apply Hall; now left | intros c Hc; apply Hall; now right].
Qed.

Lemma all_chars_impl (p q : ascii -> bool) (s : string) :
  (forall c, p c = true -> q c = true) -> all_chars p s = true -> all_chars q s = true.
Proof.
  intros Hpq. rewrite !all_chars_In. intros Hp c Hc. now apply Hpq, Hp.
Qed.

(** Every label name that passes [check_label_name_format] passes
    [check_name_format]: the label format is the metric format without the
    colon. *)
Lemma label_name_is_metric_name (s : string) :
  check_label_name_format s = Ok tt -> check_name_format s = Ok tt.
Proof.
  unfold check_label_name_format, check_name_format.
  destruct (label_name_format_regex s) eqn:El; [intros _|discriminate].
  assert (En : name_format_regex s = true); [|now rewrite En].
  destruct s as [|c s]; [discriminate|]. simpl in *.
  apply andb_true_iff in El as [Hc Hs]. apply andb_true_iff. split.
  - apply orb_true_iff in Hc as [Hc|Hc]; rewrite Hc; [reflexivity|].
    now rewrite orb_true_r.
  - eapply all_chars_impl; [|exact Hs]. intros x Hx. simpl in Hx.
    apply orb_true_iff in Hx as [Hx|Hx]; [|rewrite Hx; now rewrite orb_true_r].
    now rewrite Hx.
Qed.

Lemma label_name_is_metric_name_witness :
  check_label_name_format "_LaBeL_NaMe" = Ok tt
  /\ check_name_format "_LaBeL_NaMe" = Ok tt.
Proof.
  split; [reflexivity|].
  exact (label_name_is_metric_name "_LaBeL_NaMe" eq_refl).
Defined.

Lemma name_char_safe (c : ascii) :
  (is_alpha c || is_digit c || Ascii.eqb c "_" || Ascii.eqb c ":") = true ->
  More.breaks_line c = false.
Proof.
  destruct c as [[] [] [] [] [] [] [] []]; vm_compute; congruence.
Qed.

Lemma name_first_char (c : ascii) :
  (is_alpha c || Ascii.eqb c "_" || Ascii.eqb c ":") = true ->
  is_digit c = false
  /\ (is_alpha c || is_digit c || Ascii.eqb c "_" || Ascii.eqb c ":") = true.
Proof.
  destruct c as [[] [] [] [] [] [] [] []]; vm_compute; intuition congruence.
Qed.

(** A name that passes [check_name_format] is not empty, does not start with
    a digit, and holds no blank, brace, quote, backslash, comma, equals sign,
    hash or line break: written into a HELP, TYPE or sample line it cannot
    end the line or open a label block. *)
Lemma valid_name_is_safe (s : string) :
  check_name_format s = Ok tt ->
  (exists c rest, s = String c rest /\ is_digit c = false)
  /\ forall c, In c (list_ascii_of_string s) -> More.breaks_line c = false.
Proof.
  unfold check_name_format.
  destruct (name_format_regex s) eqn:En; [intros _|discriminate].
  destruct s as [|c s]; [discriminate|]. simpl in En.
  apply andb_true_iff in En as [Hc Hs]. apply name_first_char in Hc as [Hd Hc].
  split; [now exists c, s|].
  intros x [<-|Hx]; [now apply name_char_safe|].
  apply name_char_safe. rewrite all_chars_In in Hs. now apply Hs.
Qed.

Lemma valid_name_is_safe_witness :
  check_name_format "_MeTriC:NaMe" = Ok tt
  /\ forall c, In c (list_ascii_of_string "_MeTriC:NaMe") -> More.breaks_line c = false.
Proof.
  split; [reflexivity|].
  exact (proj2 (valid_name_is_safe "_MeTriC:NaMe" eq_refl)).
Defined.

(** ** Labels *)

(** [Label::operator<] is a strict total order on labels, and
    [Label::operator==] holds exactly for equal labels, that is exactly when
    neither label is less than the other: a [std::set<Label>] holds a label
    once. *)
Lemma Label_operators :
  (forall a : Label, less a a = false)
  /\ (forall a b c : Label, less a b = true -> less b c = true -> less a c = true)
  /\ (forall a b : Label, a = b \/ less a b = true \/ less b a = true)
  /\ (forall a b : Label, Label_eqb a b = true <-> equiv a b = true).
Proof.
  split; [apply less_irrefl|]. split; [apply less_trans|]. split.
  - intros a b. destruct (less a b) eqn:Lab; [tauto|].
    destruct (less b a) eqn:Lba; [tauto|]. left. now apply less_total.
  - intros [n1 v1] [n2 v2]. rewrite equiv_eq. unfold Label_eqb. simpl.
    rewrite andb_true_iff, !String.eqb_eq. split.
    + now intros [-> ->].
    + now intros [= -> ->].
Qed.

(** ** Constructors *)

Lemma for_each_check_spec (names : list string) :
  match MetricFamily.for_each_check names with
  | Ok _ => forall n, In n names -> label_name_format_regex n = true
  | Throw e =>
      e = invalid_argument "Label name does not follow format"
      /\ exists n, In n names /\ label_name_format_regex n = false
  end.
Proof.
  induction names as [|n names IH]; simpl; [tauto|].
  unfold check_label_name_format.
  destruct (label_name_format_regex n) eqn:En; simpl.
  - destruct (MetricFamily.for_each_check names).
    + intros m [<-|Hm]; auto.
    + destruct IH as [-> (m & Hm & Em)]. split; [reflexivity|]. exists m. tauto.
  - split; [reflexivity|]. exists n. tauto.
Qed.

(** The constructor of a family succeeds exactly when the metric name and
    every label name have their format; the family then has the given name,
    description, type and schema and no instance.  A bad metric name is
    reported before a bad label name. *)
Lemma family_constructor (name description : string) (type : MetricType.t)
    (labels_names : StdSet.t string) :
  match MetricFamily.new name description type labels_names with
  | Ok f =>
      name_format_regex name = true
      /\ (forall n, In n labels_names -> label_name_format_regex n = true)
      /\ f.(MetricFamily.base)
         = {| Metric._name := name; Metric._description := description;
              Metric._type := type |}
      /\ f.(MetricFamily._labels_names) = labels_names
      /\ f.(MetricFamily._metrics) = StdMap.empty
  | Throw e =>
      (name_format_regex name = false
       /\ e = invalid_argument "Metric name does not follow format")
      \/ (name_format_regex name = true
          /\ e = invalid_argument "Label name does not follow format"
          /\ exists n, In n labels_names /\ label_name_format_regex n = false)
  end.
Proof.
  unfold MetricFamily.new, Metric.new, check_name_format.
  destruct (name_format_regex name); simpl; [|now left].
  pose proof (for_each_check_spec labels_names) as Hc.
  destruct (MetricFamily.for_each_check labels_names).
  - repeat split; auto.
  - right. destruct Hc as [-> Hn]. auto.
Qed.

(** The constructors of the three plain metrics succeed exactly when the name
    has its format; the metric then carries the tag of its kind and starts at
    zero, at the initial value, or with every bucket of the ladder at zero. *)
Lemma metric_constructors (name description : string) (initial_value : float)
    (buckets : StdSet.t float) :
  match CounterMetric.new name description with
  | Ok m => name_format_regex name = true
            /\ get_name (IsCounterMetric m) = name
            /\ get_type (IsCounterMetric m) = MetricType.Counter
            /\ Counter.get m.(CounterMetric.counter) = 0%float
  | Throw _ => name_format_regex name = false
  end
  /\ match GaugeMetric.new name description initial_value with
     | Ok m => name_format_regex name = true
               /\ get_name (IsGaugeMetric m) = name
               /\ get_type (IsGaugeMetric m) = MetricType.Gauge
               /\ Gauge.get m.(GaugeMetric.gauge) = initial_value
     | Throw _ => name_format_regex name = false
     end
  /\ match HistogramMetric.new name description buckets with
     | Ok m => name_format_regex name = true
               /\ get_name (IsHistogramMetric m) = name
               /\ get_type (IsHistogramMetric m) = MetricType.Histogram
               /\ Forall (fun p => snd p = 0%float)
                    (Histogram.buckets m.(HistogramMetric.histogram))
     | Throw _ => name_format_regex name = false
     end.
Proof.
  unfold CounterMetric.new, GaugeMetric.new, HistogramMetric.new, Metric.new,
    check_name_format.
  destruct (name_format_regex name); simpl; repeat split; try reflexivity.
  apply new_buckets.
Qed.

(** ** Registry: size, round trips and snapshots *)

Section MoreMapFacts.
Context {K V : Type} `{LessLaws K}.
Implicit Types (m : StdMap.t K V) (k : K) (v : V).

Lemma map_erase_insert k v m :
  StdMap.find k m = None -> StdMap.erase k (StdMap.insert k v m) = m.
Proof.
  induction m as [|[k' v'] m IH]; simpl.
  - now rewrite equiv_refl.
  - destruct (equiv k k') eqn:E; [discriminate|]. intros Hf.
    destruct (less k k') eqn:L1; simpl.
    + now rewrite equiv_refl.
    + destruct (less k' k) eqn:L2; simpl.
      * rewrite E. now rewrite IH.
      * unfold equiv in E. rewrite L1, L2 in E. discriminate.
Qed.

Lemma map_insert_last k v m :
  Forall (fun x => less (fst x) k = true) m -> StdMap.insert k v m = m ++ [(k, v)].
Proof.
  induction m as [|[k' v'] m IH]; simpl; intros F; [reflexivity|].
  inversion F as [|? ? Hk Hm]; subst. simpl in Hk.
  rewrite (less_asym _ _ Hk), Hk. now rewrite IH.
Qed.

Lemma fold_insert_ascending (l : list (K * V)) : forall m,
  ascending (StdMap.keys l) ->
  (forall x y, In x m -> In y l -> less (fst x) (fst y) = true) ->
  fold_left (fun m (p : K * V) => StdMap.insert (fst p) (snd p) m) l m = m ++ l.
Proof.
  induction l as [|[k v] l IH]; intros m A Hlt; simpl.
  - now rewrite app_nil_r.
  - simpl in A. apply ascending_inv in A as [A F].
    rewrite map_insert_last.
    + rewrite IH; [now rewrite <- app_assoc|assumption|].
      intros x y Hx Hy. apply in_app_or in Hx as [Hx|[<-|[]]].
      * apply Hlt; [assumption|now right].
      * simpl. rewrite Forall_forall in F. apply F. now apply in_map.
    + apply Forall_forall. intros x Hx. apply (Hlt x (k, v)); [assumption|now left].
Qed.

Lemma fold_insert_keeps (l : list (K * V)) : forall m k v,
  ascending (StdMap.keys m) ->
  StdMap.find k m = Some v ->
  StdMap.find k (fold_left (fun m (p : K * V) => StdMap.insert (fst p) (snd p) m) l m)
  = Some v.
Proof.
  induction l as [|[k2 v2] l IH]; intros m k v A Hf; simpl; [assumption|].
  apply IH; [now apply map_insert_ascending|].
  destruct (equiv k k2) eqn:E.
  - apply equiv_eq in E as <-. now rewrite (map_insert_present _ _ _ _ A Hf).
  - apply equiv_neq in E. now rewrite map_find_insert_other.
Qed.

Lemma fold_insert_present (l : list (K * V)) : forall m y,
  ascending (StdMap.keys m) -> In y l ->
  exists v,
    StdMap.find (fst y)
      (fold_left (fun m (p : K * V) => StdMap.insert (fst p) (snd p) m) l m)
    = Some v.
Proof.
  induction l as [|[k2 v2] l IH]; intros m y A Hy; simpl; [contradiction|].
  destruct Hy as [<-|Hy].
  - simpl fst. destruct (StdMap.find k2 m) as [v0|] eqn:Hf.
    + exists v0. apply fold_insert_keeps; [now apply map_insert_ascending|].
      now rewrite (map_insert_present _ _ _ _ A Hf).
    + exists v2. apply fold_insert_keeps; [now apply map_insert_ascending|].
      now apply map_find_insert_new.
  - apply IH; [now apply map_insert_ascending|assumption].
Qed.

Lemma fold_insert_noop (l : list (K * V)) : forall m,
  ascending (StdMap.keys m) ->
  (forall y, In y l -> exists v, StdMap.find (fst y) m = Some v) ->
  fold_left (fun m (p : K * V) => StdMap.insert (fst p) (snd p) m) l m = m.
Proof.
  induction l as [|[k2 v2] l IH]; intros m A Hp; simpl; [reflexivity|].
  destruct (Hp (k2, v2) (or_introl eq_refl)) as [v0 Hf]. simpl in Hf.
  rewrite (map_insert_present _ _ _ _ A Hf).
  apply IH; [assumption|]. intros y Hy. apply Hp. now right.
Qed.
End MoreMapFacts.

(** [size] counts the registrations: a registration that returns [true]
    makes it one larger, a removal that returns [true] one smaller, and a
    refused registration or removal leaves it as it is. *)
Lemma registry_size (objs : Heap.t MetricObject) (r : Registry.t) (metric : ptr)
    (n : string) :
  match Registry.register_metric metric objs r with
  | Some (b, r') => Registry.size r' = Registry.size r + (if b then 1 else 0)
  | None => Heap.deref objs metric = None
  end
  /\ (let '(b, r') := Registry.unregister_metric n r in
      Registry.size r = Registry.size r' + (if b then 1 else 0)).
Proof.
  split.
  - unfold Registry.register_metric.
    destruct (Heap.deref objs metric) as [o|]; [|reflexivity].
    destruct (StdMap.find _ _) eqn:Hf; unfold Registry.size; simpl; [lia|].
    rewrite (map_insert_length _ _ _ Hf). lia.
  - unfold Registry.unregister_metric, Registry.size. simpl.
    rewrite map_erase_count. destruct (StdMap.find _ _) eqn:Hf; simpl.
    + rewrite <- (map_erase_size _ _ _ Hf). lia.
    + rewrite (map_erase_absent _ _ Hf). lia.
Qed.

(** Registering a metric whose name is free and unregistering that name
    gives back the registry as it was. *)
Lemma register_then_unregister (objs : Heap.t MetricObject) (r : Registry.t)
    (metric : ptr) (o : MetricObject) :
  Heap.deref objs metric = Some o ->
  ~ Inv.registered (get_name o) r ->
  exists r',
    Registry.register_metric metric objs r = Some (true, r')
    /\ Registry.unregister_metric (get_name o) r' = (true, r).
Proof.
  intros Hd Hn. apply registered_get_metric in Hn. rewrite get_metric_find in Hn.
  unfold Registry.register_metric. rewrite Hd, Hn.
  eexists. split; [reflexivity|].
  unfold Registry.unregister_metric. simpl.
  rewrite map_erase_count, (map_find_insert_new _ _ _ Hn), (map_erase_insert _ _ _ Hn).
  now destruct r.
Qed.

Lemma register_then_unregister_witness :
  Heap.deref Scenario.objs 0 = Some (IsGaugeMetric Scenario.gauge)
  /\ (Inv.registered "my_gauge" Registry.new <-> False)
  /\ exists r',
       Registry.register_metric 0 Scenario.objs Registry.new = Some (true, r')
       /\ Registry.unregister_metric "my_gauge" r' = (true, Registry.new).
Proof.
  assert (Hn : ~ Inv.registered "my_gauge" Registry.new) by (intros []).
  split; [reflexivity|]. split; [tauto|].
  exact (register_then_unregister Scenario.objs Registry.new 0
           (IsGaugeMetric Scenario.gauge) eq_refl Hn).
Defined.

(** A second removal of the same name returns [false] and changes nothing. *)
Lemma unregister_twice (r : Registry.t) (n : string) :
  Inv.registry_ok r ->
  let '(_, r1) := Registry.unregister_metric n r in
  Registry.unregister_metric n r1 = (false, r1).
Proof.
  intros Hok. unfold Registry.unregister_metric. simpl.
  rewrite map_erase_count.
  rewrite (map_find_erase_same n _ Hok). simpl.
  now rewrite (map_erase_absent _ _ (map_find_erase_same n _ Hok)).
Qed.

Lemma unregister_twice_witness :
  Inv.registry_ok Scenario.registry
  /\ Registry.unregister_metric "my_gauge" Scenario.registry = (true, Registry.new)
  /\ Registry.unregister_metric "my_gauge" Registry.new = (false, Registry.new).
Proof.
  assert (Hok : Inv.registry_ok Scenario.registry) by (repeat constructor).
  split; [exact Hok|]. split; [reflexivity|].
  exact (unregister_twice Scenario.registry "my_gauge" Hok).
Defined.

(** Collected into an empty map, the snapshot is the registry's own map:
    every registered metric under its name, and nothing else. *)
Lemma collect_into_empty (r : Registry.t) :
  Inv.registry_ok r ->
  Registry.collect StdMap.empty r = r.(Registry._register_metrics).
Proof.
  intros Hok. unfold Registry.collect.
  rewrite fold_insert_ascending; [reflexivity|exact Hok|intros x y []].
Qed.

Lemma collect_into_empty_witness :
  Inv.registry_ok Scenario.two_registry
  /\ Registry.collect StdMap.empty Scenario.two_registry
     = [("active", 1); ("requests_total", 0)].
Proof.
  split; [exact two_registry_ok|].
  exact (collect_into_empty Scenario.two_registry two_registry_ok).
Defined.

(** [collect] never replaces an entry of the map it is given: a name that
    the map already holds keeps its metric, also when the registry has
    another metric of that name; and collecting the same registry again adds
    nothing. *)
Lemma collect_keeps_output (snap : Snapshot) (r : Registry.t) :
  ascending (StdMap.keys snap) ->
  (forall k p, StdMap.find k snap = Some p ->
               StdMap.find k (Registry.collect snap r) = Some p)
  /\ Registry.collect (Registry.collect snap r) r = Registry.collect snap r.
Proof.
  intros A. split.
  - intros k p Hf. now apply fold_insert_keeps.
  - unfold Registry.collect at 1. apply fold_insert_noop.
    + now apply collect_ascending.
    + intros y Hy. now apply fold_insert_present.
Qed.

Lemma collect_keeps_output_witness :
  ascending (StdMap.keys [("my_gauge", 7)])
  /\ StdMap.find "my_gauge" (Registry.collect [("my_gauge", 7)] Scenario.registry)
     = Some 7.
Proof.
  assert (A : ascending (StdMap.keys (V:=ptr) [("my_gauge", 7)])) by (repeat constructor).
  split; [exact A|].
  exact (proj1 (collect_keeps_output [("my_gauge", 7)] Scenario.registry A)
           "my_gauge" 7 eq_refl).
Defined.

(** ** Families: instances behind the entries *)

Section MoreFamilyFacts.
Context {T Args : Type} (construct : Args -> T).
Implicit Types (f : MetricFamily.t) (h : Heap.t T) (labels : StdSet.t Label).

Lemma deref_app (h : Heap.t T) (c : option T) (p : ptr) (x : T) :
  Heap.deref h p = Some x -> Heap.deref (h ++ [c]) p = Some x.
Proof.
  unfold Heap.deref. destruct (nth_error h p) as [c0|] eqn:E; [|discriminate].
  rewrite nth_error_app1 by (apply nth_error_Some; congruence). now rewrite E.
Qed.

Lemma deref_fresh (h : Heap.t T) : Heap.deref h (List.length h) = None.
Proof.
  unfold Heap.deref. now rewrite (proj2 (nth_error_None h (List.length h)) (le_n _)).
Qed.

Lemma deref_new (h : Heap.t T) (x : T) :
  Heap.deref (h ++ [Some x]) (List.length h) = Some x.
Proof.
  unfold Heap.deref. rewrite nth_error_app2 by apply le_n. now rewrite Nat.sub_diag.
Qed.

Lemma labels_wf_step labels args f h :
  More.family_wf f h ->
  let '(_, (f', h')) := MetricFamily.labels construct labels args f h in
  More.family_wf f' h'.
Proof.
  intros [Hlive Hinj].
  destruct (accepted_dec labels f) as [A|N];
    [|destruct (labels_rejected construct _ args _ h N) as [what ->]; now split].
  rewrite (labels_accepted construct _ args _ h A).
  destruct (StdMap.find labels f.(MetricFamily._metrics)) as [p|] eqn:Hf;
    [now split|].
  split; simpl.
  - intros ls p Hin. apply map_insert_In in Hin as [[= -> ->]|Hin].
    + eexists. apply deref_new.
    + destruct (Hlive ls p Hin) as [x Hx]. exists x. now apply deref_app.
  - intros ls1 ls2 p H1 H2.
    apply map_insert_In in H1 as [E1|H1]; apply map_insert_In in H2 as [E2|H2].
    + congruence.
    + injection E1 as _ ->. destruct (Hlive ls2 _ H2) as [x Hx].
      rewrite deref_fresh in Hx. discriminate.
    + injection E2 as _ ->. destruct (Hlive ls1 _ H1) as [x Hx].
      rewrite deref_fresh in Hx. discriminate.
    + now apply (Hinj ls1 ls2 p).
Qed.

(** [labels] keeps the family well formed: every entry still refers to a live
    instance, and no two entries share one. *)
Lemma labels_keeps_wf labels args f h :
  More.family_wf f h ->
  let '(_, (f', h')) := MetricFamily.labels construct labels args f h in
  More.family_wf f' h'.
Proof. apply labels_wf_step. Qed.

(** Two different label sets of a family never get the same instance. *)
Lemma distinct_labels_distinct_instances labels1 labels2 args1 args2 f h :
  More.family_wf f h ->
  Inv.accepted labels1 f -> Inv.accepted labels2 f ->
  labels1 <> labels2 ->
  let '(r1, (f1, h1)) := MetricFamily.labels construct labels1 args1 f h in
  let '(r2, (f2, h2)) := MetricFamily.labels construct labels2 args2 f1 h1 in
  exists p1 p2 x1 x2,
    r1 = Ok p1 /\ r2 = Ok p2 /\ p1 <> p2
    /\ Heap.deref h2 p1 = Some x1 /\ Heap.deref h2 p2 = Some x2.
Proof.
  intros W A1 A2 Hne.
  pose proof (labels_wf_step labels1 args1 f h W) as W1.
  destruct (MetricFamily.labels construct labels1 args1 f h) as [r1 [f1 h1]] eqn:E1.
  assert (A2' : Inv.accepted labels2 f1).
  { rewrite (labels_accepted construct _ args1 _ h A1) in E1.
    destruct (StdMap.find labels1 _); inversion E1; subst; exact A2. }
  assert (X1 : exists p1, r1 = Ok p1
                          /\ StdMap.find labels1 f1.(MetricFamily._metrics) = Some p1).
  { rewrite (labels_accepted construct _ args1 _ h A1) in E1.
    destruct (StdMap.find labels1 f.(MetricFamily._metrics)) as [p|] eqn:Hf;
      inversion E1; subst; eexists; split; try reflexivity; try assumption.
    simpl. now apply map_find_insert_new. }
  destruct X1 as (p1 & -> & F1).
  rewrite (labels_accepted construct _ args2 _ h1 A2') in *.
  destruct W1 as [Live1 Inj1]. apply map_find_In in F1 as In1.
  destruct (Live1 _ _ In1) as [x1 Hx1].
  destruct (StdMap.find labels2 f1.(MetricFamily._metrics)) as [p2|] eqn:F2.
  - apply map_find_In in F2 as In2. destruct (Live1 _ _ In2) as [x2 Hx2].
    exists p1, p2, x1, x2. repeat split; try assumption.
    intros <-. apply Hne. now apply (Inj1 labels1 labels2 p1).
  - exists p1, (List.length h1), x1, (construct args2). repeat split.
    + intros ->. rewrite deref_fresh in Hx1. discriminate.
    + now apply deref_app.
    + apply deref_new.
Qed.
End MoreFamilyFacts.

Lemma scenario_family_wf : More.family_wf (T:=Gauge.t) Scenario.family Heap.empty.
Proof. split; simpl; intros; contradiction. Qed.

Lemma scenario_accepted_1 : Inv.accepted Scenario.l1_0_l2_0 Scenario.family.
Proof. split; [reflexivity|]. intros l [<-|[<-|[]]]; simpl; tauto. Qed.

Lemma scenario_accepted_2 : Inv.accepted Scenario.l1_1_l2_2 Scenario.family.
Proof. split; [reflexivity|]. intros l [<-|[<-|[]]]; simpl; tauto. Qed.

Lemma labels_keeps_wf_witness :
  More.family_wf (T:=Gauge.t) Scenario.family Heap.empty
  /\ (let '(_, (f', h')) :=
        MetricFamily.labels Gauge.new Scenario.l1_0_l2_0 0%float Scenario.family
          Heap.empty in
      More.family_wf f' h').
Proof.
  split; [exact scenario_family_wf|].
  exact (labels_keeps_wf Gauge.new Scenario.l1_0_l2_0 0%float Scenario.family
           Heap.empty scenario_family_wf).
Defined.

Lemma distinct_labels_distinct_instances_witness :
  More.family_wf (T:=Gauge.t) Scenario.family Heap.empty
  /\ Inv.accepted Scenario.l1_0_l2_0 Scenario.family
  /\ Inv.accepted Scenario.l1_1_l2_2 Scenario.family
  /\ (Scenario.l1_0_l2_0 = Scenario.l1_1_l2_2 <-> False)
  /\ (let '(r1, (f1, h1)) :=
        MetricFamily.labels Gauge.new Scenario.l1_0_l2_0 0%float Scenario.family
          Heap.empty in
      let '(r2, (f2, h2)) :=
        MetricFamily.labels Gauge.new Scenario.l1_1_l2_2 588%float f1 h1 in
      exists p1 p2 x1 x2,
        r1 = Ok p1 /\ r2 = Ok p2 /\ p1 <> p2
        /\ Heap.deref h2 p1 = Some x1 /\ Heap.deref h2 p2 = Some x2).
Proof.
  assert (Hne : Scenario.l1_0_l2_0 <> Scenario.l1_1_l2_2) by discriminate.
  split; [exact scenario_family_wf|]. split; [exact scenario_accepted_1|].
  split; [exact scenario_accepted_2|]. split; [tauto|].
  exact (distinct_labels_distinct_instances Gauge.new Scenario.l1_0_l2_0
           Scenario.l1_1_l2_2 0%float 588%float Scenario.family Heap.empty
           scenario_family_wf scenario_accepted_1 scenario_accepted_2 Hne).
Defined.

(** The gauge of a label set starts at the default value of the call that
    creates it; the default value of a later call for that label set is
    ignored. *)
Lemma gauge_family_first_default (labels : StdSet.t Label) (d1 d2 : float)
    (f : GaugeFamily.t) (h : Heap.t Gauge.t) :
  Inv.accepted labels f ->
  StdMap.find labels f.(MetricFamily._metrics) = None ->
  let '(r1, (f1, h1)) := GaugeFamily.labels labels d1 f h in
  let '(r2, (f2, h2)) := GaugeFamily.labels labels d2 f1 h1 in
  exists p, r1 = Ok p /\ r2 = Ok p
            /\ option_map Gauge.get (Heap.deref h2 p) = Some d1.
Proof.
  intros A Hf. unfold GaugeFamily.labels.
  rewrite (labels_accepted Gauge.new _ d1 _ h A), Hf.
  assert (A' : Inv.accepted labels
                 (MetricFamily.with_metrics f
                    (StdMap.insert labels (List.length h) f.(MetricFamily._metrics))))
    by exact A.
  rewrite (labels_accepted Gauge.new _ d2 _ _ A'). simpl.
  rewrite (map_find_insert_new _ _ _ Hf).
  exists (List.length h). repeat split. now rewrite deref_new.
Qed.

Lemma gauge_family_first_default_witness :
  Inv.accepted Scenario.l1_1_l2_2 Scenario.family
  /\ (let '(r1, (f1, h1)) :=
        GaugeFamily.labels Scenario.l1_1_l2_2 588 Scenario.family Heap.empty in
      let '(r2, (f2, h2)) := GaugeFamily.labels Scenario.l1_1_l2_2 0 f1 h1 in
      exists p, r1 = Ok p /\ r2 = Ok p
                /\ option_map Gauge.get (Heap.deref h2 p) = Some 588%float).
Proof.
  split; [exact scenario_accepted_2|].
  exact (gauge_family_first_default Scenario.l1_1_l2_2 588 0 Scenario.family
           Heap.empty scenario_accepted_2 eq_refl).
Defined.

(** The histogram that a histogram family creates for a new label set has
    the ladder of the family, with every count and the sum at zero; the call
    leaves the ladder of the family as it is. *)
Lemma histogram_family_instance (labels : StdSet.t Label) (f : HistogramFamily.t)
    (h : Heap.t Histogram.t) :
  Inv.accepted labels f.(HistogramFamily.family) ->
  StdMap.find labels f.(HistogramFamily.family).(MetricFamily._metrics) = None ->
  let '(r, (f', h')) := HistogramFamily.labels labels f h in
  exists p x,
    r = Ok p /\ Heap.deref h' p = Some x
    /\ x = Histogram.new f.(HistogramFamily._buckets)
    /\ Forall (fun b => snd b = 0%float) (Histogram.buckets x)
    /\ x.(Histogram._sum) = 0%float
    /\ f'.(HistogramFamily._buckets) = f.(HistogramFamily._buckets).
Proof.
  intros A Hf. unfold HistogramFamily.labels.
  rewrite (labels_accepted Histogram.new _ _ _ h A), Hf.
  exists (List.length h), (Histogram.new f.(HistogramFamily._buckets)).
  repeat split; try reflexivity.
  - apply deref_new.
  - apply new_buckets.
Qed.

Lemma histogram_family_instance_witness :
  Inv.accepted Scenario.l1_0_l2_0 Scenario.family
  /\ (let '(r, (f', h')) :=
        HistogramFamily.labels Scenario.l1_0_l2_0
          {| HistogramFamily.family := Scenario.family;
             HistogramFamily._buckets := default_buckets |} Heap.empty in
      exists p x,
        r = Ok p /\ Heap.deref h' p = Some x
        /\ x = Histogram.new default_buckets
        /\ Forall (fun b => snd b = 0%float) (Histogram.buckets x)
        /\ x.(Histogram._sum) = 0%float
        /\ f'.(HistogramFamily._buckets) = default_buckets).
Proof.
  split; [exact scenario_accepted_1|].
  exact (histogram_family_instance Scenario.l1_0_l2_0
           {| HistogramFamily.family := Scenario.family;
              HistogramFamily._buckets := default_buckets |} Heap.empty
           scenario_accepted_1 eq_refl).
Defined.

(** ** Escaping of label values *)

Lemma escape_app (a b : string) :
  escape_double_quotes (a ++ b) = (escape_double_quotes a ++ escape_double_quotes b)%string.
Proof.
  induction a as [|c a IH]; simpl; [reflexivity|].
  destruct (Ascii.eqb c (ascii_of_nat 34)); rewrite IH; [|reflexivity].
  unfold backslash, dquote. reflexivity.
Qed.

(** Only double quotes are touched: a text without one, whatever else it
    holds (backslashes, line feeds), is written as it is; and escaping adds
    one character for each double quote. *)
Lemma escape_only_quotes (text : string) :
  (More.quote_free text = true <-> escape_double_quotes text = text)
  /\ String.length (escape_double_quotes text)
     = String.length text + More.count_quotes text.
Proof.
  split.
  - induction text as [|c text IH]; simpl; [tauto|].
    unfold More.is_dquote. destruct (Ascii.eqb c (ascii_of_nat 34)) eqn:E; simpl.
    + split; [discriminate|]. intros H. exfalso.
      apply (f_equal String.length) in H. simpl in H.
      assert (L : forall t, String.length t <= String.length (escape_double_quotes t)).
      { clear. induction t as [|x t IHt]; simpl; [lia|].
        destruct (Ascii.eqb x (ascii_of_nat 34)); simpl; lia. }
      specialize (L text). lia.
    + rewrite IH. split; [now intros ->|now intros [= ->]].
  - induction text as [|c text IH]; simpl; [reflexivity|].
    unfold More.is_dquote. destruct (Ascii.eqb c (ascii_of_nat 34)); simpl; lia.
Qed.

(** In an escaped text every double quote comes right after a backslash, and
    after exactly one backslash more than in the text: the backslashes of
    the text are copied as they are, so a quote that came after [k]
    backslashes comes after [k + 1] of them. *)
Lemma escape_quotes_follow (text : string) :
  (forall after_backslash,
      More.quotes_follow_backslash after_backslash (escape_double_quotes text) = true)
  /\ (forall run,
        More.quote_runs run (escape_double_quotes text)
        = List.map S (More.quote_runs run text)).
Proof.
  split.
  - induction text as [|c text IH]; intros after; simpl; [reflexivity|].
    destruct (Ascii.eqb c (ascii_of_nat 34)) eqn:E.
    + simpl. apply IH.
    + simpl. unfold More.is_dquote at 1. rewrite E. simpl. apply IH.
  - induction text as [|c text IH]; intros run; [reflexivity|].
    cbn [escape_double_quotes More.quote_runs]. unfold More.is_dquote at 1.
    destruct (Ascii.eqb c (ascii_of_nat 34)) eqn:E.
    + cbn. now rewrite IH.
    + cbn [More.quote_runs]. unfold More.is_dquote at 1. rewrite E.
      destruct (More.is_backslash c); apply IH.
Qed.

(** ** NaN and the comparisons of the metric kinds *)

Lemma is_nan_spec (x : float) : PrimFloat.is_nan x = true <-> Prim2SF x = S754_nan.
Proof.
  unfold Prim2SF. destruct (PrimFloat.is_nan x); [tauto|].
  split; [discriminate|].
  destruct (is_zero x); [discriminate|]. destruct (is_infinity x); [discriminate|].
  destruct (Z.frexp x) as [r e].
  destruct (shr_fexp prec emax _ _ _) as [mrs e'].
  destruct (shr_m mrs); discriminate.
Qed.

Lemma nan_not_leb (v b : float) : PrimFloat.is_nan v = true -> (v <=? b)%float = false.
Proof. intros Hn. apply is_nan_spec in Hn. now rewrite leb_spec, Hn. Qed.

Lemma nan_not_positive (v : float) : PrimFloat.is_nan v = true -> (0 <? v)%float = false.
Proof.
  intros Hn. apply is_nan_spec in Hn. rewrite ltb_spec, Hn.
  unfold SFltb, SFcompare. now destruct (Prim2SF 0).
Qed.

Lemma leb_infinity (v : float) : (v <=? infinity)%float = negb (PrimFloat.is_nan v).
Proof.
  destruct (PrimFloat.is_nan v) eqn:En; [now apply nan_not_leb|]. simpl.
  rewrite leb_spec. change (Prim2SF infinity) with (S754_infinity false).
  destruct (Prim2SF v) as [s|s| |s m e] eqn:Ev; try reflexivity.
  - now destruct s.
  - apply is_nan_spec in Ev. congruence.
Qed.

Lemma float_ltb_irrefl (x : float) : (x <? x)%float = false.
Proof.
  rewrite ltb_spec. unfold SFltb, SFcompare.
  destruct (Prim2SF x) as [s|s| |s m e]; try reflexivity; destruct s; try reflexivity.
  - rewrite Z.compare_refl.
    change (Pos.compare_cont Eq m m) with (Pos.compare m m).
    now rewrite Pos.compare_refl.
  - rewrite Z.compare_refl.
    change (Pos.compare_cont Eq m m) with (Pos.compare m m).
    now rewrite Pos.compare_refl.
Qed.

(** [Gauge::add] has the guard of [Counter::add]: it leaves the gauge as it
    is for [v <= 0] and adds [v] for [v > 0].  A NaN is neither: [add] and
    [sub] of both kinds ignore it, so no accumulator turns NaN through them. *)
Lemma guarded_updates (c : Counter.t) (g : Gauge.t) (v : float) :
  ((v <=? 0)%float = true -> Gauge.add v g = g)
  /\ ((0 <? v)%float = true -> Gauge.get (Gauge.add v g) = (Gauge.get g + v)%float)
  /\ (PrimFloat.is_nan v = true ->
      Counter.add v c = c /\ Gauge.add v g = g /\ Gauge.sub v g = g).
Proof.
  unfold Counter.add, Gauge.add, Gauge.sub. split; [|split].
  - intros Hv. now rewrite (leb_zero_not_positive v Hv).
  - intros Hv. now rewrite Hv.
  - intros Hv. now rewrite (nan_not_positive v Hv).
Qed.

Lemma guarded_updates_witness :
  Gauge.add (-3) (Gauge.new 42) = Gauge.new 42
  /\ Gauge.get (Gauge.add 3 (Gauge.new 42)) = (Gauge.get (Gauge.new 42) + 3)%float
  /\ (Counter.add nan Counter.new = Counter.new
      /\ Gauge.add nan (Gauge.new 42) = Gauge.new 42
      /\ Gauge.sub nan (Gauge.new 42) = Gauge.new 42).
Proof.
  split; [|split].
  - exact (proj1 (guarded_updates Counter.new (Gauge.new 42) (-3)) eq_refl).
  - exact (proj1 (proj2 (guarded_updates Counter.new (Gauge.new 42) 3)) eq_refl).
  - exact (proj2 (proj2 (guarded_updates Counter.new (Gauge.new 42) nan)) eq_refl).
Defined.

(** ** Counter: increments *)

Lemma counter_inc_count (n : nat) :
  Counter.get (Nat.iter n Counter.inc Counter.new) = Inv.count_after n.
Proof. induction n as [|n IH]; [reflexivity|]. simpl. now rewrite <- IH. Qed.

(** A counter that is only incremented holds the exact number of increments
    below [2^53]; from [2^53] increments on it holds [2^53] and [inc] no
    longer changes it. *)
Lemma counter_inc_saturates (n : nat) :
  let c := Nat.iter n Counter.inc Counter.new in
  ((Z.of_nat n < 2 ^ 53)%Z ->
     Prim2SF (Counter.get c) = Binary64.of_Z (Z.of_nat n))
  /\ ((2 ^ 53 <= Z.of_nat n)%Z ->
      Counter.get c = Binary64.two53 /\ Counter.inc c = c).
Proof.
  intros c. unfold c. rewrite counter_inc_count. split.
  - apply count_after_int.
  - intros Hn. split; [now apply count_after_top|].
    pose proof (counter_inc_count n) as G. rewrite (count_after_top n Hn) in G.
    destruct (Nat.iter n Counter.inc Counter.new) as [x]. simpl in G. subst x.
    reflexivity.
Qed.

Lemma counter_inc_saturates_witness :
  Prim2SF (Counter.get (Nat.iter 3 Counter.inc Counter.new)) = Binary64.of_Z 3
  /\ (2 ^ 53 <= Z.of_nat (Z.to_nat (2 ^ 53)))%Z
  /\ Counter.get (Nat.iter (Z.to_nat (2 ^ 53)) Counter.inc Counter.new)
     = Binary64.two53.
Proof.
  assert (H : (2 ^ 53 <= Z.of_nat (Z.to_nat (2 ^ 53)))%Z)
    by (rewrite Z2Nat.id; [apply Z.le_refl | discriminate]).
  split; [exact (proj1 (counter_inc_saturates 3) eq_refl)|].
  split; [exact H|].
  exact (proj1 (proj2 (counter_inc_saturates (Z.to_nat (2 ^ 53))) H)).
Defined.

(** ** Histogram: the ladder and the observations *)

Lemma float_equiv_refl (x : float) : equiv x x = true.
Proof. unfold equiv, less, double_Less. now rewrite float_ltb_irrefl. Qed.

Lemma insert_has_equivalent (x : float) (v : atomic_double.t)
    (m : StdMap.t float atomic_double.t) :
  exists p, In p (StdMap.insert x v m) /\ equiv x (fst p) = true.
Proof.
  induction m as [|[k c] m IH]; simpl.
  - exists (x, v). split; [now left|apply float_equiv_refl].
  - destruct (less x k) eqn:L1.
    + exists (x, v). split; [now left|apply float_equiv_refl].
    + destruct (less k x) eqn:L2.
      * destruct IH as (p & Hp & Ep). exists p. split; [now right|assumption].
      * exists (k, c). split; [now left|]. unfold equiv. simpl. now rewrite L1, L2.
Qed.

Lemma find_zero (x : float) (m : StdMap.t float atomic_double.t) :
  (exists p, In p m /\ equiv x (fst p) = true) ->
  Forall (fun p => snd p = 0%float) m ->
  StdMap.find x m = Some 0%float.
Proof.
  induction m as [|[k c] m IH]; intros (p & Hp & Ep) Z; [contradiction|].
  inversion Z as [|? ? Zc Zm]; subst. simpl in *.
  destruct (equiv x k) eqn:E; [now rewrite Zc|].
  apply IH; [|assumption]. destruct Hp as [<-|Hp]; [simpl in Ep; congruence|].
  now exists p.
Qed.

Lemma nan_not_less (b k : float) :
  PrimFloat.is_nan b = true -> less b k = false /\ less k b = false.
Proof.
  intros Hn. apply is_nan_spec in Hn. unfold less, double_Less.
  rewrite !ltb_spec, Hn. unfold SFltb, SFcompare. split; [reflexivity|].
  now destruct (Prim2SF k).
Qed.

(** Inserting a NaN into a map that is not empty changes nothing: the NaN
    is equivalent to the first key. *)
Lemma insert_nan (b : float) (v : atomic_double.t) (m : StdMap.t float atomic_double.t) :
  PrimFloat.is_nan b = true -> m <> [] -> StdMap.insert b v m = m.
Proof.
  intros Hn Hne. destruct m as [|[k c] m]; [congruence|]. simpl.
  destruct (nan_not_less b k Hn) as [-> ->]. reflexivity.
Qed.

Lemma insert_not_empty (b : float) (v : atomic_double.t)
    (m : StdMap.t float atomic_double.t) :
  StdMap.insert b v m <> [].
Proof.
  destruct m as [|[k c] m]; simpl; [discriminate|].
  destruct (less b k); [discriminate|]. destruct (less k b); discriminate.
Qed.

(** A new histogram has a bucket, at zero, for every bound of the ladder it
    is given and for [+infinity]; no bound of the histogram is a NaN, a NaN
    in the ladder being taken for the bound [+infinity] that is already
    there. *)
Lemma new_histogram_buckets (buckets : StdSet.t float) :
  (forall x, In x (infinity :: buckets) ->
             StdMap.find x (Histogram.buckets (Histogram.new buckets)) = Some 0%float)
  /\ (forall p, In p (Histogram.buckets (Histogram.new buckets)) ->
                PrimFloat.is_nan (fst p) = false).
Proof.
  pose proof (new_buckets buckets) as (_ & Z & _).
  unfold Histogram.buckets, Histogram.new in *. simpl in *.
  assert (G : forall (l : list float) m,
             (forall x, In x l ->
                exists p,
                  In p (fold_left (fun m bucket => StdMap.insert bucket 0%float m) l m)
                  /\ equiv x (fst p) = true)
             /\ (forall p, In p m ->
                   In p (fold_left (fun m bucket => StdMap.insert bucket 0%float m) l m))).
  { induction l as [|b l IH]; intros m; simpl; [split; [contradiction|tauto]|].
    destruct (IH (StdMap.insert b 0%float m)) as [IH1 IH2]. split.
    - intros x [<-|Hx]; [|now apply IH1].
      destruct (insert_has_equivalent b 0%float m) as (p & Hp & Ep).
      exists p. split; [now apply IH2|assumption].
    - intros p Hp. apply IH2. now apply map_insert_mono. }
  assert (N : forall (l : list float) (m : StdMap.t float atomic_double.t),
             m <> [] ->
             (forall p, In p m -> PrimFloat.is_nan (fst p) = false) ->
             forall p,
               In p (fold_left (fun m bucket => StdMap.insert bucket 0%float m) l m) ->
               PrimFloat.is_nan (fst p) = false).
  { induction l as [|b l IH]; intros m Hne Hm; simpl; [exact Hm|].
    apply IH; [apply insert_not_empty|].
    destruct (PrimFloat.is_nan b) eqn:Eb.
    - now rewrite (insert_nan b _ m Eb Hne).
    - intros p Hp. apply map_insert_In in Hp as [->|Hp]; [exact Eb|now apply Hm]. }
  split.
  - intros x Hx. apply find_zero; [|exact Z].
    destruct Hx as [<-|Hx].
    + exists (infinity, 0%float). split; [|reflexivity].
      apply (proj2 (G buckets _)). now left.
    + now apply (proj1 (G buckets _)).
  - apply N; [discriminate|]. intros p [<-|[]]. reflexivity.
Qed.

Lemma observe_infinity_bucket (observations : list float) : forall (h : Histogram.t) (n : nat),
  (forall c, In (infinity, c) h.(Histogram._buckets) -> c = Inv.count_after n) ->
  forall c,
    In (infinity, c)
      (fold_left (fun h x => Histogram.observe x h) observations h).(Histogram._buckets) ->
    c = Inv.count_after (n + List.length (More.comparable observations)).
Proof.
  induction observations as [|v l IH]; intros h n Hh c; simpl.
  - rewrite Nat.add_0_r. apply Hh.
  - assert (Hstep : forall c',
              In (infinity, c') (Histogram.observe v h).(Histogram._buckets) ->
              c' = Inv.count_after
                     (n + if negb (PrimFloat.is_nan v) then 1 else 0)).
    { intros c' Hin. simpl in Hin. apply in_map_iff in Hin as ([b c0] & E & Hb).
      simpl in E. rewrite <- leb_infinity.
      destruct (v <=? b)%float eqn:Evb; injection E as -> <-.
      - rewrite Evb, (Hh c0 Hb), Nat.add_1_r. reflexivity.
      - rewrite Evb, Nat.add_0_r. now apply Hh. }
    intros Hin. rewrite (IH _ _ Hstep c Hin). f_equal.
    destruct (PrimFloat.is_nan v); simpl; lia.
Qed.

(** The count of the bucket [+infinity] is the number of observations that
    are not NaN (held in a [double], so exact below [2^53]). *)
Lemma infinity_bucket_counts_all (buckets : StdSet.t float) (observations : list float) :
  exists c,
    In (infinity, c) (Histogram.buckets (Inv.observed buckets observations))
    /\ forall c',
         In (infinity, c') (Histogram.buckets (Inv.observed buckets observations)) ->
         c' = Inv.count_after (List.length (More.comparable observations)).
Proof.
  assert (U : forall c',
             In (infinity, c') (Histogram.buckets (Inv.observed buckets observations)) ->
             c' = Inv.count_after (List.length (More.comparable observations))).
  { intros c' Hin.
    apply (observe_infinity_bucket observations (Histogram.new buckets) 0); [|exact Hin].
    intros c Hc. pose proof (new_buckets buckets) as (_ & Z & _).
    rewrite Forall_forall in Z. now apply (Z (infinity, c)). }
  pose proof (new_buckets buckets) as (_ & _ & I).
  rewrite <- (observed_keys buckets observations) in I.
  apply in_map_iff in I as ([k c] & Ek & Hin). simpl in Ek. subst k.
  exists c. split; [exact Hin|exact U].
Qed.

(** Observing a NaN changes no bucket and turns the sum into a NaN, which
    it then stays. *)
Lemma observe_nan (v : float) (h : Histogram.t) :
  PrimFloat.is_nan v = true ->
  Histogram.buckets (Histogram.observe v h) = Histogram.buckets h
  /\ PrimFloat.is_nan (Histogram.observe v h).(Histogram._sum) = true
  /\ forall x, PrimFloat.is_nan
                 (Histogram.observe x (Histogram.observe v h)).(Histogram._sum) = true.
Proof.
  intros Hn.
  assert (A : forall a b, PrimFloat.is_nan a = true \/ PrimFloat.is_nan b = true ->
                          PrimFloat.is_nan (a + b)%float = true).
  { intros a b H. apply is_nan_spec. rewrite add_spec. unfold SF64add, SFadd.
    destruct H as [H|H]; apply is_nan_spec in H; rewrite H;
      [reflexivity|now destruct (Prim2SF a)]. }
  split; [|split].
  - unfold Histogram.buckets, Histogram.observe. simpl.
    rewrite <- (map_id h.(Histogram._buckets)) at 2.
    apply map_ext. intros p. now rewrite (nan_not_leb v (fst p) Hn).
  - simpl. apply A. now right.
  - intros x. simpl. apply A. left. apply A. now right.
Qed.

Lemma observe_nan_witness :
  PrimFloat.is_nan nan = true
  /\ Histogram.buckets (Histogram.observe nan (Histogram.new default_buckets))
     = Histogram.buckets (Histogram.new default_buckets)
  /\ PrimFloat.is_nan
       (Histogram.observe nan (Histogram.new default_buckets)).(Histogram._sum) = true.
Proof.
  split; [reflexivity|].
  pose proof (observe_nan nan (Histogram.new default_buckets) eq_refl) as (H1 & H2 & _).
  split; [exact H1|exact H2].
Defined.

(** ** Serializer: samples of a histogram and expired metrics *)


(** The serializer writes nothing for an entry whose metric has been
    destroyed: the output is that of the snapshot without such entries, and
    the stream is left as it is when no metric of the snapshot is alive. *)
Lemma serialize_skips_expired (stream : string) (snap : Snapshot) (st : Store) :
  TextSerializer.serialize stream snap st
  = TextSerializer.serialize stream (More.live_entries snap st) st
  /\ (More.live_entries snap st = [] -> TextSerializer.serialize stream snap st = stream).
Proof.
  assert (E : Inv.alive (More.live_entries snap st) st = Inv.alive snap st).
  { unfold Inv.alive, More.live_entries.
    induction snap as [|[k p] snap IH]; [reflexivity|].
    cbn [flat_map List.filter snd].
    destruct (Heap.deref st.(objects) p) as [o|] eqn:Hd; [|exact IH].
    cbn [flat_map snd]. now rewrite Hd, IH. }
  split.
  - now rewrite !serialize_texts, E.
  - intros Hl. rewrite serialize_texts, <- E, Hl. simpl. apply string_app_nil_r.
Qed.

Lemma serialize_skips_expired_witness :
  More.live_entries [("active", 1)]
    {| objects := Heap.destroy 1 Scenario.two_objs; counters := Heap.empty;
       gauges := Heap.empty; histograms := Heap.empty |} = []
  /\ TextSerializer.serialize "kept" [("active", 1)]
       {| objects := Heap.destroy 1 Scenario.two_objs; counters := Heap.empty;
          gauges := Heap.empty; histograms := Heap.empty |} = "kept".
Proof.
  split; [reflexivity|].
  exact (proj2 (serialize_skips_expired "kept" [("active", 1)]
                  {| objects := Heap.destroy 1 Scenario.two_objs;
                     counters := Heap.empty; gauges := Heap.empty;
                     histograms := Heap.empty |}) eq_refl).
Defined.

(** ** [atomic_double]: runs without interference *)

Lemma loop_spurious (failures : nat) (attempts : list bool)
    (cell target_value : float) :
  Weak.loop (repeat true failures ++ attempts) cell cell target_value
  = Weak.loop attempts cell cell target_value.
Proof. induction failures as [|n IH]; [reflexivity|]. exact IH. Qed.

Lemma loop_exchanges (attempts : list bool) (cell target_value : float) :
  Weak.loop (false :: attempts) cell cell target_value = (target_value, true).
Proof.
  cbn [Weak.loop]. unfold Weak.compare_exchange_weak.
  now rewrite same_representation_refl.
Qed.

(** [change] with an exchange that may fail spuriously, no other thread
    writing.  As long as the attempts fail spuriously the loop goes on and
    the cell keeps its value; the first attempt that does not fail
    spuriously stores the target and ends the loop, however many failures
    came before it.  The loop entered with a stale [current] ends with the
    target in the cell at the second such attempt at the latest: a failed
    exchange has loaded the cell into [current], and the target is the one
    the loop was entered with. *)
Lemma change_stores_target (cell target_value : float) (failures : nat)
    (attempts : list bool) :
  Weak.change (repeat true failures) target_value cell = (cell, false)
  /\ Weak.change (repeat true failures ++ false :: attempts) target_value cell
     = (target_value, true)
  /\ (forall (current : float) (more : nat),
        Weak.loop (repeat true failures ++ false :: repeat true more ++ false :: attempts)
          cell current target_value
        = (target_value, true)).
Proof.
  unfold Weak.change. split; [|split].
  - rewrite <- (app_nil_r (repeat true failures)). now rewrite loop_spurious.
  - rewrite loop_spurious. apply loop_exchanges.
  - intros current more. destruct failures as [|n].
    + cbn [repeat app Weak.loop]. unfold Weak.compare_exchange_weak at 1.
      cbn [negb andb].
      destruct (Threads.same_representation cell current); [reflexivity|].
      rewrite loop_spurious. apply loop_exchanges.
    + change (repeat true (S n) ++ false :: repeat true more ++ false :: attempts)
        with (true :: (repeat true n ++ false :: repeat true more ++ false :: attempts)).
      cbn [Weak.loop]. unfold Weak.compare_exchange_weak at 1. cbn [negb andb].
      rewrite loop_spurious. apply loop_exchanges.
Qed.

Lemma set_nth_middle {A} (a b : list A) (x y : A) :
  Threads.set_nth (List.length a) x (a ++ y :: b) = a ++ x :: b.
Proof. induction a as [|z a IH]; simpl; [reflexivity|]. now rewrite IH. Qed.

Lemma step_middle (cell : float) (a b : list Threads.thread) (t : Threads.thread) :
  Threads.step (List.length a) {| Threads.cell := cell; Threads.pool := a ++ t :: b |}
  = {| Threads.cell := fst (Threads.step_thread cell t);
       Threads.pool := a ++ snd (Threads.step_thread cell t) :: b |}.
Proof.
  unfold Threads.step. simpl.
  rewrite nth_error_app2 by apply le_n. rewrite Nat.sub_diag. simpl.
  destruct (Threads.step_thread cell t) as [c t']. simpl.
  now rewrite set_nth_middle.
Qed.

Lemma serial_from (ops : list Threads.op) : forall (cell : float) (done : list Threads.thread),
  Threads.run
    (flat_map (fun i => [i; i; i]) (seq (List.length done) (List.length ops)))
    {| Threads.cell := cell; Threads.pool := done ++ List.map Threads.AtLoad ops |}
  = {| Threads.cell := More.applied cell ops;
       Threads.pool := done ++ List.map (fun _ => Threads.Done) ops |}.
Proof.
  induction ops as [|o ops IH]; intros cell done; [reflexivity|].
  cbn [List.length seq flat_map List.map app]. unfold Threads.run in *.
  cbn [fold_left].
  rewrite step_middle. cbn [Threads.step_thread fst snd].
  rewrite step_middle. cbn [Threads.step_thread fst snd].
  rewrite step_middle. cbn [Threads.step_thread].
  rewrite same_representation_refl. cbn [fst snd].
  replace (done ++ Threads.Done :: List.map Threads.AtLoad ops)
    with ((done ++ [Threads.Done]) ++ List.map Threads.AtLoad ops)
    by (now rewrite <- app_assoc).
  replace (S (List.length done)) with (List.length (done ++ [Threads.Done]))
    by (rewrite length_app; simpl; lia).
  rewrite IH. unfold More.applied. simpl. now rewrite <- app_assoc.
Qed.

(** When every thread runs its [+=] or [-=] to the end before the next one
    starts, no update is lost: all calls return and the cell holds the value
    of the operations applied one after the other. *)
Lemma serial_run_applies_all (initial : float) (ops : list Threads.op) :
  let final := Threads.run (More.serial (List.length ops)) (Threads.start initial ops) in
  Threads.finished final = true
  /\ final.(Threads.cell) = More.applied initial ops.
Proof.
  intros final. subst final. unfold More.serial, Threads.start.
  pose proof (serial_from ops initial []) as S. cbn [List.length app] in S.
  rewrite S. simpl. split; [|reflexivity].
  unfold Threads.finished. simpl. apply forallb_forall.
  intros t Ht. apply in_map_iff in Ht as (o & <- & _). reflexivity.
Qed.


(** ** Registry: the invariant of the map *)

(** The map of a registry built from the empty one by registrations and
    removals stays in key order; in such a registry no name occurs twice and
    [get_metric] finds every entry under its name. *)
Lemma registry_invariant :
  Inv.registry_ok Registry.new
  /\ (forall objs r metric b r',
        Inv.registry_ok r ->
        Registry.register_metric metric objs r = Some (b, r') ->
        Inv.registry_ok r')
  /\ (forall r n,
        Inv.registry_ok r -> Inv.registry_ok (snd (Registry.unregister_metric n r)))
  /\ (forall r,
        Inv.registry_ok r ->
        NoDup (StdMap.keys r.(Registry._register_metrics))
        /\ forall k p, In (k, p) r.(Registry._register_metrics) ->
                       Registry.get_metric k r = Some p).
Proof.
  split; [apply registry_new_ok|]. split; [|split].
  - intros objs r metric b r' Hok. unfold Registry.register_metric.
    destruct (Heap.deref objs metric); [|discriminate].
    destruct (StdMap.find _ _); intros [= <- <-]; [assumption|].
    unfold Inv.registry_ok. simpl. now apply map_insert_ascending.
  - intros r n Hok. now apply unregister_metric_spec.
  - intros r Hok. split; [now apply ascending_NoDup|].
    intros k p Hin. rewrite get_metric_find. now apply map_In_find.
Qed.

(** ** Families: what a call leaves alone, and the lines of a family *)

(** No call of [labels] changes the name, the description, the type or the
    schema of the family, and none changes an instance that exists. *)
Lemma labels_keeps_identity {T Args : Type} (construct : Args -> T)
    (labels : StdSet.t Label) (args : Args) (f : MetricFamily.t) (h : Heap.t T) :
  let '(_, (f', h')) := MetricFamily.labels construct labels args f h in
  f'.(MetricFamily.base) = f.(MetricFamily.base)
  /\ f'.(MetricFamily._labels_names) = f.(MetricFamily._labels_names)
  /\ forall p x, Heap.deref h p = Some x -> Heap.deref h' p = Some x.
Proof.
  pose proof (labels_grows construct labels args f h) as G.
  unfold MetricFamily.labels in *.
  destruct (negb _); [now repeat split|].
  destruct (existsb _ labels); [now repeat split|].
  destruct (StdMap.find labels _); [now repeat split|].
  simpl in *. repeat split. apply G.
Qed.

